(** * Ciabatta: geometry utilities ([vector.py]) and the neighbour-finding
    engine exercised by [Lib/test/test_numerics.py].

    The floating-point arrays of numpy are idealised: an array entry is a
    real number ([R]) and numpy's arithmetic is exact real arithmetic.  An
    array of shape [(n, d)] is a list of [n] rows together with the length
    [d] of the last axis, so that a batch without rows still has a last
    axis.  The coordinates handed to the neighbour engine are finite
    floating-point numbers, hence rationals ([Q]), and the engine's
    arithmetic is exact rational arithmetic. *)

From Stdlib Require Import String.
From Stdlib Require Import Reals List ZArith Bool Arith.
From Stdlib Require Import QArith Qround Permutation Sorted Psatz.
Import ListNotations.

(* ================================================================= *)
(** * Part I: definitions *)

Module Vector.
Local Open Scope R_scope.

(** ** Exceptions and results *)

Inductive exn : Type :=
| Exception (msg : string)
| ValueError (msg : string)
| MemoryError (msg : string).

Inductive result (A : Type) : Type :=
| Ok (a : A)
| Raise (e : exn).
Arguments Ok {A} a.
Arguments Raise {A} e.

(** ** Arrays *)

(** A batch of vectors: [shape_last] is [v.shape[-1]], [rows] the vectors. *)
Record ndarray : Type := mk_ndarray {
  shape_last : nat;
  rows : list (list R)
}.

Definition well_formed (v : ndarray) : Prop :=
  Forall (fun r => length r = shape_last v) (rows v).

(** [v.size] *)
Definition size (v : ndarray) : nat := (length (rows v) * shape_last v)%nat.

(** [v[i]] and [v[i][j]]; numpy raises out of range, the callers below stay
    in range. *)
Definition row (v : ndarray) (i : nat) : list R := nth i (rows v) [].
Definition item (r : list R) (j : nat) : R := nth j r 0.

Fixpoint zip_with {A B C : Type} (f : A -> B -> C) (l : list A) (m : list B)
  : list C :=
  match l, m with
  | a :: l', b :: m' => f a b :: zip_with f l' m'
  | _, _ => []
  end.

(** [np.sum(..., axis=-1)] on one row, [np.square], [np.dot] on two rows. *)
Definition sum (l : list R) : R := fold_right Rplus 0 l.
Definition square (x : R) : R := x * x.
Definition dot (a b : list R) : R := sum (zip_with Rmult a b).

(** ** Magnitudes *)

Definition row_mag_sq (r : list R) : R := sum (map square r).
Definition row_mag (r : list R) : R := sqrt (row_mag_sq r).

(** [np.square(v).sum(axis=-1)] *)
Definition vector_mag_sq (v : ndarray) : list R := map row_mag_sq (rows v).

(** [np.sqrt(vector_mag_sq(v))] *)
Definition vector_mag (v : ndarray) : list R := map sqrt (vector_mag_sq v).

(** ** Unit vectors *)

(** [r / m] on one row ([v / mag[..., np.newaxis]]). *)
Definition row_div (r : list R) (m : R) : list R := map (fun x => x / m) r.

(** [vector_unit_nonull]: every row is divided by its magnitude.  On a null
    row numpy's division gives [nan] (with a warning, no exception); real
    division does not represent it, and nothing below relies on such a
    row. *)
Definition vector_unit_nonull (v : ndarray) : ndarray :=
  if (size v =? 0)%nat then v
  else mk_ndarray (shape_last v) (zip_with row_div (rows v) (vector_mag v)).

(** [v_new[mag > 0.0] /= mag[mag > 0.0][..., np.newaxis]] *)
Definition divide_where_positive (rs : list (list R)) (mag : list R)
  : list (list R) :=
  zip_with (fun r m => if Rlt_dec 0 m then row_div r m else r) rs mag.

Definition vector_unit_nullnull (v : ndarray) : ndarray :=
  if (size v =? 0)%nat then v
  else
    let mag := vector_mag v in
    let v_new := rows v in
    mk_ndarray (shape_last v) (divide_where_positive v_new mag).

(** ** Angles *)

(** One entry of [theta].  [fdiv] is the division that produces
    [cos_theta]; [None] is an entry of [np.empty_like] that is never
    assigned ([cos_theta] is [nan], so neither mask selects it). *)
Definition angle_entry (fdiv : R -> R -> R) (a b : list R) : option R :=
  let num := dot a b in
  let den := row_mag a * row_mag b in
  if Req_dec_T den 0 then
    if Req_dec_T num 0 then None
    else Some (if Rlt_dec 0 num then 0 else PI)
  else
    let cos_theta := fdiv num den in
    if Rle_dec (Rabs cos_theta) 1 then Some (acos cos_theta)
    else Some (if Rlt_dec 0 (dot a b) then 0 else PI).

Definition vector_angle_with (fdiv : R -> R -> R) (a b : ndarray)
  : list (option R) :=
  zip_with (angle_entry fdiv) (rows a) (rows b).

Definition vector_angle (a b : ndarray) : list (option R) :=
  vector_angle_with Rdiv a b.

(** The [except IndexError] path: [a] and [b] are single vectors. *)
Definition vector_angle_single (fdiv : R -> R -> R) (a b : list R) : R :=
  match angle_entry fdiv a b with
  | Some theta => theta
  | None => PI
  end.

(** ** Perpendicular vectors *)

Definition vector_perp (v : ndarray) : result ndarray :=
  if negb (shape_last v =? 2)%nat then
    Raise (Exception "Can only define a unique perpendicular vector in 2d")
  else
    Ok (mk_ndarray (shape_last v)
          (map (fun r => [item r 1; - item r 0]) (rows v))).

(** ** Coordinate system transformations *)

(** [np.arctan2(y, x)], signed zeros apart. *)
Definition arctan2 (y x : R) : R :=
  if Rlt_dec 0 x then atan (y / x)
  else if Rlt_dec x 0 then
    if Rle_dec 0 y then atan (y / x) + PI else atan (y / x) - PI
  else if Rlt_dec 0 y then PI / 2
  else if Rlt_dec y 0 then - (PI / 2)
  else 0.

Definition invalid_polar : exn :=
  Exception "Invalid vector for polar representation".

Definition polar_to_cart (arr_p : ndarray) : result ndarray :=
  if (shape_last arr_p =? 1)%nat then
    Ok (mk_ndarray (shape_last arr_p) (rows arr_p))
  else if (shape_last arr_p =? 2)%nat then
    Ok (mk_ndarray (shape_last arr_p)
          (map (fun p => [item p 0 * cos (item p 1);
                          item p 0 * sin (item p 1)]) (rows arr_p)))
  else if (shape_last arr_p =? 3)%nat then
    Ok (mk_ndarray (shape_last arr_p)
          (map (fun p => [item p 0 * sin (item p 1) * cos (item p 2);
                          item p 0 * sin (item p 1) * sin (item p 2);
                          item p 0 * cos (item p 1)]) (rows arr_p)))
  else Raise invalid_polar.

Definition cart_to_polar (arr_c : ndarray) : result ndarray :=
  if (shape_last arr_c =? 1)%nat then
    Ok (mk_ndarray (shape_last arr_c) (rows arr_c))
  else if (shape_last arr_c =? 2)%nat then
    Ok (mk_ndarray (shape_last arr_c)
          (map (fun c => [row_mag c; arctan2 (item c 1) (item c 0)])
               (rows arr_c)))
  else if (shape_last arr_c =? 3)%nat then
    Ok (mk_ndarray (shape_last arr_c)
          (map (fun c => let r := row_mag c in
                         [r; acos (item c 2 / r);
                          arctan2 (item c 1) (item c 0)]) (rows arr_c)))
  else Raise invalid_polar.

(** ** The global random state of [np.random] *)

(** An outcome of the random draws is a tape of raw samples, each meant to
    lie in [[0, 1)]; [pos] is the number of samples consumed so far. *)
Record RandomState : Type := mk_state {
  tape : nat -> R;
  pos : nat
}.

Definition valid_tape (s : RandomState) : Prop :=
  forall i : nat, 0 <= tape s i < 1.

(** Computations that may raise and that read and advance the random
    state. *)
Definition M (A : Type) : Type := RandomState -> result A * RandomState.

Definition ret {A : Type} (a : A) : M A := fun s => (Ok a, s).
Definition raise {A : Type} (e : exn) : M A := fun s => (Raise e, s).
Definition lift {A : Type} (r : result A) : M A := fun s => (r, s).
Definition bind {A B : Type} (c : M A) (k : A -> M B) : M B :=
  fun s =>
    match c s with
    | (Ok a, s') => k a s'
    | (Raise e, s') => (Raise e, s')
    end.

Notation "x <- c ;; k" := (bind c (fun x => k))
  (at level 61, c at next level, right associativity).

(** The next [n] raw samples, and the state once they are consumed. *)
Definition draws (s : RandomState) (n : nat) : list R :=
  map (tape s) (seq (pos s) n).
Definition advance (n : nat) (s : RandomState) : RandomState :=
  mk_state (tape s) (pos s + n).

(** [np.random.random_sample(n)] *)
Definition random_sample (n : nat) : M (list R) :=
  fun s => (Ok (draws s n), advance n s).

(** [np.random.uniform(low, high, n)] *)
Definition uniform (low high : R) (n : nat) : M (list R) :=
  us <- random_sample n ;;
  ret (map (fun u => low + (high - low) * u) us).

(** [np.random.randint(k, size=n)] *)
Definition randint (k : nat) (n : nat) : M (list R) :=
  us <- random_sample n ;;
  ret (map (fun u => IZR (Zfloor (INR k * u))) us).

(** [np.empty([n, d])] and [np.zeros([n, d])] accept no negative length. *)
Definition np_shape (n d : Z) : result (nat * nat) :=
  if ((n <? 0) || (d <? 0))%Z then
    Raise (ValueError "negative dimensions are not allowed")
  else Ok (Z.to_nat n, Z.to_nat d).

(** ** Sampling *)

Definition sphere_pick_polar (d n : Z) : M ndarray :=
  shape <- lift (np_shape n d) ;;
  let '(n', d') := shape in
  if (d =? 1)%Z then
    bits <- randint 2 n' ;;
    ret (mk_ndarray d' (map (fun k => [k * 2 - 1]) bits))
  else if (d =? 2)%Z then
    angles <- uniform (- PI) PI n' ;;
    ret (mk_ndarray d' (map (fun t => [1; t]) angles))
  else if (d =? 3)%Z then
    uv <- uniform 0 1 (2 * n') ;;
    let u := firstn n' uv in
    let v := skipn n' uv in
    ret (mk_ndarray d'
           (zip_with (fun ui vi => [1; acos (2 * vi - 1); 2 * PI * ui]) u v))
  else raise invalid_polar.

Definition sphere_pick (d n : Z) : M ndarray :=
  a <- sphere_pick_polar d n ;;
  lift (polar_to_cart a).

Definition disk_pick_polar (n : Z) : M ndarray :=
  shape <- lift (np_shape n 2) ;;
  let '(n', d') := shape in
  squares <- uniform 0 1 n' ;;
  angles <- uniform 0 (2 * PI) n' ;;
  ret (mk_ndarray d' (zip_with (fun u t => [sqrt u; t]) squares angles)).

Definition disk_pick (n : Z) : M ndarray :=
  a <- disk_pick_polar n ;;
  lift (polar_to_cart a).

(** [v_new[mag == 0.0] = picks]: the null rows take the picked rows, in
    order. *)
Fixpoint assign_where_zero (rs : list (list R)) (mag : list R)
  (picks : list (list R)) : list (list R) :=
  match rs, mag with
  | r :: rs', m :: mag' =>
      if Req_dec_T m 0 then
        match picks with
        | p :: picks' => p :: assign_where_zero rs' mag' picks'
        | [] => r :: assign_where_zero rs' mag' []
        end
      else r :: assign_where_zero rs' mag' picks
  | _, _ => rs
  end.

(** [(mag == 0.0).sum()] *)
Definition count_zero (mag : list R) : nat :=
  List.length (filter (fun m => if Req_dec_T m 0 then true else false) mag).

Definition vector_unit_nullrand (v : ndarray) : M ndarray :=
  if (size v =? 0)%nat then ret v
  else
    let mag := vector_mag v in
    picks <- sphere_pick (Z.of_nat (shape_last v)) (Z.of_nat (count_zero mag)) ;;
    let v_new := assign_where_zero (rows v) mag (rows picks) in
    ret (mk_ndarray (shape_last v) (divide_where_positive v_new mag)).

(** ** Specification vocabulary *)

(** [f 0 + f 1 + ... + f (n - 1)] *)
Fixpoint sum_upto (f : nat -> R) (n : nat) : R :=
  match n with
  | O => 0
  | S k => sum_upto f k + f k
  end.

(** A vector with a nonzero component. *)
Definition nonzero (r : list R) : Prop := Exists (fun x => x <> 0) r.

(** The dimensions for which a polar representation is defined. *)
Definition valid_dim (d : Z) : Prop := (d = 1 \/ d = 2 \/ d = 3)%Z.

Definition raises {A : Type} (r : result A) : Prop := exists e, r = Raise e.


(** Random states used in examples: every raw sample is [u]; the first raw
    sample is [0] and the later ones are [1/2]. *)
Definition constant_state (u : R) : RandomState := mk_state (fun _ => u) 0.
Definition fresh_state : RandomState :=
  mk_state (fun i => if (i =? 0)%nat then 0 else 1 / 2) 0.



(** Sequencing of calls that may raise. *)
Definition and_then {A B : Type} (r : result A) (k : A -> result B)
  : result B :=
  match r with
  | Ok a => k a
  | Raise e => Raise e
  end.

(** ** Allocation *)

(** What [np.empty] and [np.empty_like] hand out for the shape [(n, d)]:
    an array holding whatever the memory held, here [junk i j] at row [i]
    and column [j]. *)
Definition np_empty_rows (junk : nat -> nat -> R) (n d : nat)
  : list (list R) :=
  map (fun i => map (junk i) (seq 0 d)) (seq 0 n).













End Vector.

(* ----------------------------------------------------------------- *)
(** ** The neighbour-finding engine ([numerics]) *)

(** The module [numerics] that [Lib/test/test_numerics.py] imports is
    absent from the repository sources; its three strategies are modelled
    from the design of the engine (sections 3, 4 and 7 of the
    specification). *)

Module Numerics.
Local Open Scope Q_scope.

Inductive error : Type :=
| InvalidParameterError
| DomainError
| InternalConsistencyError.

Inductive result (A : Type) : Type :=
| Ok (a : A)
| Err (e : error).
Arguments Ok {A} a.
Arguments Err {A} e.

Definition bind {A B : Type} (r : result A) (k : A -> result B) : result B :=
  match r with
  | Ok a => k a
  | Err e => Err e
  end.

Notation "x <- c ;; k" := (bind c (fun x => k))
  (at level 61, c at next level, right associativity).

(** A loop over [l] that threads the state [s] and stops at the first
    error. *)
Fixpoint foldM {S A : Type} (f : S -> A -> result S) (l : list A) (s : S)
  : result S :=
  match l with
  | [] => Ok s
  | x :: l' => s' <- f s x ;; foldM f l' s'
  end.

Definition point : Type := (Q * Q)%type.

Definition Qltb (x y : Q) : bool := negb (Qle_bool y x).

(** Modelled from the spec: section 4.1, the minimum-image correction of a
    raw difference [d] along one axis: subtract [L] if [d > L/2], add [L]
    if [d < -L/2]. *)
Definition minimum_image (L d : Q) : Q :=
  if Qltb (L / 2) d then d - L
  else if Qltb d (- (L / 2)) then d + L
  else d.

(** Modelled from the spec: section 4.1, [squaredDistance(L, p1, p2)], the
    sum of the squared corrected differences; it fails with [DomainError]
    if [L <= 0]. *)
Definition squaredDistance (L : Q) (p1 p2 : point) : result Q :=
  if Qle_bool L 0 then Err DomainError
  else
    let dx := minimum_image L (fst p2 - fst p1) in
    let dy := minimum_image L (snd p2 - snd p1) in
    Ok (dx * dx + dy * dy).

(** Modelled from the spec: section 3, the neighbour relation, one
    collection of neighbour indices per particle. *)
Definition NeighborRelation : Type := list (list nat).

(** Modelled from the spec: section 4.2, add [j] to [neighbors(i)]. *)
Fixpoint add_neighbor (i j : nat) (rel : NeighborRelation)
  : NeighborRelation :=
  match rel, i with
  | [], _ => []
  | ns :: rest, O => (ns ++ [j]) :: rest
  | ns :: rest, S i' => ns :: add_neighbor i' j rest
  end.

(** Modelled from the spec: section 4.2, add [j] to [neighbors(i)] and [i]
    to [neighbors(j)]. *)
Definition record_pair (rel : NeighborRelation) (ij : nat * nat)
  : NeighborRelation :=
  add_neighbor (snd ij) (fst ij) (add_neighbor (fst ij) (snd ij) rel).

Definition position (points : list point) (i : nat) : point :=
  nth i points (0, 0).

(** Modelled from the spec: sections 4.2 and 4.4, apply the Periodic
    Distance Rule to the pair [(i, j)] and accept it if the squared
    distance is at most [R * R]. *)
Definition visit (points : list point) (L R : Q) (rel : NeighborRelation)
  (ij : nat * nat) : result NeighborRelation :=
  d <- squaredDistance L (position points (fst ij)) (position points (snd ij)) ;;
  Ok (if Qle_bool d (R * R) then record_pair rel ij else rel).

Definition invalid_parameters (L R : Q) : bool :=
  Qle_bool L 0 || Qle_bool R 0.

(** Modelled from the spec: section 4.2, [findNeighborsDirect]: every
    unordered pair [(i, j)], [i < j], is evaluated; invalid [L] or [R]
    fails before any computation (section 7). *)
Definition findNeighborsDirect (points : list point) (L R : Q)
  : result NeighborRelation :=
  if invalid_parameters L R then Err InvalidParameterError
  else
    let N := length points in
    foldM (fun rel i =>
             foldM (fun rel j => visit points L R rel (i, j))
                   (seq (S i) (N - S i)) rel)
          (seq 0 N) (repeat [] N).

(** Modelled from the spec: section 3, the cell grid: [side] is [C], and
    [cells] holds [C] rows of [C] occupant lists. *)
Record CellGrid : Type := mk_grid {
  side : Z;
  cells : list (list (list nat))
}.

(** Modelled from the spec: section 4.3, [C = max(1, floor(L / R))]. *)
Definition cell_count (L R : Q) : Z := Z.max 1 (Qfloor (L / R)).

(** Modelled from the spec: section 4.3, the periodic wrap of a coordinate
    into [[0, L)]. *)
Definition wrap (L x : Q) : Q := x - L * inject_Z (Qfloor (x / L)).

Definition clamp (lo hi z : Z) : Z := Z.max lo (Z.min hi z).

(** Modelled from the spec: section 4.3, wrap, divide by the cell side
    [s = L / C], floor, clamp to [[0, C - 1]]. *)
Definition cell_index (L : Q) (C : Z) (x : Q) : Z :=
  clamp 0 (C - 1) (Qfloor (wrap L x / (L / inject_Z C))).

Definition cell_of (L : Q) (C : Z) (p : point) : Z * Z :=
  (cell_index L C (fst p), cell_index L C (snd p)).

Fixpoint update_nth {A : Type} (n : nat) (f : A -> A) (l : list A) : list A :=
  match l, n with
  | [], _ => []
  | x :: l', O => f x :: l'
  | x :: l', S n' => x :: update_nth n' f l'
  end.

(** Modelled from the spec: section 4.3, append the particle index [i] to
    the occupant list of cell [(r, c)]. *)
Definition append_occupant (rc : Z * Z) (i : nat)
  (g : list (list (list nat))) : list (list (list nat)) :=
  update_nth (Z.to_nat (fst rc))
    (update_nth (Z.to_nat (snd rc)) (fun occupants => occupants ++ [i])) g.

Definition empty_cells (C : nat) : list (list (list nat)) :=
  repeat (repeat [] C) C.

(** Modelled from the spec: section 4.3, [buildGrid]: every particle index
    is appended to the occupant list of its cell; it fails with
    [InvalidParameterError] if [R <= 0] or [L <= 0]. *)
Definition buildGrid (points : list point) (L R : Q) : result CellGrid :=
  if invalid_parameters L R then Err InvalidParameterError
  else
    let C := cell_count L R in
    Ok (mk_grid C
          (fold_left
             (fun g i => append_occupant (cell_of L C (position points i)) i g)
             (seq 0 (length points)) (empty_cells (Z.to_nat C)))).

Inductive mode : Type := Checked | Unchecked.

Definition in_grid (g : CellGrid) (rc : Z * Z) : bool :=
  ((0 <=? fst rc) && (fst rc <? side g) &&
   (0 <=? snd rc) && (snd rc <? side g))%Z.

(** Modelled from the spec: section 4.4, the array access of the unchecked
    mode. *)
Definition occupants (g : CellGrid) (rc : Z * Z) : list nat :=
  nth (Z.to_nat (snd rc)) (nth (Z.to_nat (fst rc)) (cells g) []) [].

(** Modelled from the spec: section 4.4, checked mode validates the cell
    index before the access and fails with an internal consistency error
    otherwise. *)
Definition cell_occupants (m : mode) (g : CellGrid) (rc : Z * Z)
  : result (list nat) :=
  match m with
  | Checked =>
      if in_grid g rc then Ok (occupants g rc)
      else Err InternalConsistencyError
  | Unchecked => Ok (occupants g rc)
  end.

Definition cell_eq_dec (a b : Z * Z) : {a = b} + {a <> b}.
Proof. decide equality; apply Z.eq_dec. Defined.

Definition offsets : list Z := [-1; 0; 1]%Z.

(** Modelled from the spec: section 4.4, the 3 x 3 block of cells centred
    on [(r, c)], indices wrapped modulo [C], every cell listed once. *)
Definition block (C : Z) (rc : Z * Z) : list (Z * Z) :=
  nodup cell_eq_dec
    (flat_map (fun dr =>
       map (fun dc => ((fst rc + dr) mod C, (snd rc + dc) mod C)%Z) offsets)
       offsets).

Definition range (C : Z) : list Z := map Z.of_nat (seq 0 (Z.to_nat C)).

Definition all_cells (C : Z) : list (Z * Z) :=
  flat_map (fun r => map (fun c => (r, c)) (range C)) (range C).

(** Modelled from the spec: section 4.4, [findNeighborsCellList]: build the
    grid; for each cell and each cell of its block, each pair (particle
    [i] of the cell, particle [j] of the block cell) with [i < j] is
    evaluated.  Checked mode validates [L] and [R] at entry and every cell
    index before the access. *)
Definition findNeighborsCellList (points : list point) (L R : Q) (m : mode)
  : result NeighborRelation :=
  _ <- match m with
       | Checked =>
           if invalid_parameters L R then Err InvalidParameterError
           else Ok tt
       | Unchecked => Ok tt
       end ;;
  g <- buildGrid points L R ;;
  foldM (fun rel rc =>
           own <- cell_occupants m g rc ;;
           foldM (fun rel b =>
                    others <- cell_occupants m g b ;;
                    foldM (fun rel i =>
                             foldM (fun rel j =>
                                      if (i <? j)%nat
                                      then visit points L R rel (i, j)
                                      else Ok rel)
                                   others rel)
                          own rel)
                 (block (side g) rc) rel)
        (all_cells (side g)) (repeat [] (length points)).

(** Modelled from the spec: the three strategies that [test_numerics.py]
    calls, under the names it calls them by. *)
Definition interacts_direct (r : list point) (L R : Q) :=
  findNeighborsDirect r L R.
Definition interacts_cl_checks (r : list point) (L R : Q) :=
  findNeighborsCellList r L R Checked.
Definition interacts_cl_nochecks (r : list point) (L R : Q) :=
  findNeighborsCellList r L R Unchecked.

(** Python's [sorted] on a list of indices. *)
Fixpoint insert (x : nat) (l : list nat) : list nat :=
  match l with
  | [] => [x]
  | y :: l' => if (x <=? y)%nat then x :: l else y :: insert x l'
  end.

Fixpoint sorted (l : list nat) : list nat :=
  match l with
  | [] => []
  | x :: l' => insert x (sorted l')
  end.

(** [[sorted(entry) for entry in d]] *)
Definition sorted_entries (rel : NeighborRelation) : NeighborRelation :=
  map sorted rel.

(** *** Specification vocabulary *)

(** The squared minimum-image distance of two particles. *)
Definition squared_distance (L : Q) (p1 p2 : point) : Q :=
  let dx := minimum_image L (fst p2 - fst p1) in
  let dy := minimum_image L (snd p2 - snd p1) in
  dx * dx + dy * dy.

(** The pair [(i, j)] is within the interaction radius. *)
Definition accepts (points : list point) (L R : Q) (ij : nat * nat) : bool :=
  Qle_bool
    (squared_distance L (position points (fst ij)) (position points (snd ij)))
    (R * R).

(** The pairs that the direct strategy evaluates, in its order. *)
Definition pairs_direct (N : nat) : list (nat * nat) :=
  flat_map (fun i => map (pair i) (seq (S i) (N - S i))) (seq 0 N).

(** What the record of a list of accepted pairs leaves in [neighbors(k)]. *)
Definition partners (k : nat) (pairs : list (nat * nat)) : list nat :=
  flat_map (fun ij => (if (fst ij =? k)%nat then [snd ij] else []) ++
                      (if (snd ij =? k)%nat then [fst ij] else [])) pairs.

(** [d == c == n] on the sorted entries, as [test_consistency] compares. *)
Definition consistent (d c n : NeighborRelation) : Prop :=
  sorted_entries d = sorted_entries c /\ sorted_entries c = sorted_entries n.

(** The particles of cell [rc], in index order. *)
Definition in_cell (points : list point) (L : Q) (C : Z) (rc : Z * Z)
  (i : nat) : bool :=
  if cell_eq_dec (cell_of L C (position points i)) rc then true else false.

Definition members (points : list point) (L : Q) (C : Z) (rc : Z * Z)
  : list nat :=
  filter (in_cell points L C rc) (seq 0 (length points)).

(** The pairs that the cell-list strategy evaluates, in its order. *)
Definition pairs_cell_list (points : list point) (L : Q) (C : Z)
  : list (nat * nat) :=
  filter (fun ij => (fst ij <? snd ij)%nat)
    (flat_map (fun rc =>
       flat_map (fun b =>
         flat_map (fun i => map (pair i) (members points L C b))
                  (members points L C rc))
         (block C rc))
       (all_cells C)).

End Numerics.

(* ----------------------------------------------------------------- *)
(** ** The harness ([Lib/test/test_numerics.py]) *)

Module TestNumerics.
Import Numerics.
Local Open Scope string_scope.

(** [==] on two lists of lists of indices. *)
Definition entries_eqb (x y : list nat) : bool :=
  if list_eq_dec Nat.eq_dec x y then true else false.
Definition relation_eqb (x y : NeighborRelation) : bool :=
  if list_eq_dec (list_eq_dec Nat.eq_dec) x y then true else false.

(** What [test_consistency] prints: the message of agreement, or one line
    [d[i] c[i] n[i]] per index found to differ, and whether the loop ended
    in an [IndexError]. *)
Inductive report : Type :=
| AllEquivalent
| Differences (lines : list (list nat * list nat * list nat))
              (index_error : bool).

(** The loop [for i in range(len(d))] of [test_consistency]: [c[i]] and
    [n[i]] raise [IndexError] where [c] or [n] is shorter than [d]. *)
Fixpoint differing_lines (d c n : NeighborRelation)
  : list (list nat * list nat * list nat) * bool :=
  match d with
  | [] => ([], false)
  | di :: d' =>
      match c, n with
      | ci :: c', ni :: n' =>
          let rest := differing_lines d' c' n' in
          if negb (entries_eqb di ci) || negb (entries_eqb di ci)
             || negb (entries_eqb ci ni)
          then ((di, ci, ni) :: fst rest, snd rest)
          else rest
      | _, _ => ([], true)
      end
  end.

(** [test_consistency], from the point where the three strategies have
    returned [d], [c] and [n]. *)
Definition test_consistency (d c n : NeighborRelation) : report :=
  let d := sorted_entries d in
  let c := sorted_entries c in
  let n := sorted_entries n in
  if relation_eqb d c && relation_eqb c n then AllEquivalent
  else
    let (lines, index_error) := differing_lines d c n in
    Differences lines index_error.

(** Python's [min] of three timings: the first smallest one. *)
Definition min3 (td tc tn : Q) : Q :=
  let m := td in
  let m := if Qltb tc m then tc else m in
  if Qltb tn m then tn else m.

(** The verdict that [find_quickest] prints, from the three timings;
    [None] if it prints none. *)
Definition find_quickest_verdict (td tc tn : Q) : option string :=
  if Qeq_bool (min3 td tc tn) td then Some "Direct"
  else if Qeq_bool (min3 td tc tn) tc then Some "Cell list using checks"
  else if Qeq_bool (min3 td tc tn) tn then Some "Cell list without checks"
  else None.

End TestNumerics.

(* ================================================================= *)
(** * Part II: theorems *)

Section VectorFacts.
Import Vector.
Local Open Scope R_scope.

Lemma sum_nonneg (l : list R) : Forall (fun x => 0 <= x) l -> 0 <= sum l.
Proof.
  induction 1 as [|x l Hx _ IH]; simpl; lra.
Qed.

Lemma row_mag_sq_nonneg (r : list R) : 0 <= row_mag_sq r.
Proof.
  unfold row_mag_sq. apply sum_nonneg.
  induction r as [|x r IH]; simpl; constructor; auto.
  unfold square. nra.
Qed.

Lemma sum_upto_shift (f : nat -> R) (n : nat) :
  sum_upto f (S n) = f O + sum_upto (fun j => f (S j)) n.
Proof.
  induction n as [|n IH].
  - simpl. lra.
  - change (sum_upto f (S (S n))) with (sum_upto f (S n) + f (S n)).
    rewrite IH. simpl. lra.
Qed.

Lemma sum_map_upto (g : R -> R) (r : list R) :
  sum (map g r) = sum_upto (fun j => g (item r j)) (length r).
Proof.
  induction r as [|x r IH].
  - reflexivity.
  - cbn [map sum fold_right length]. rewrite sum_upto_shift.
    unfold sum in IH. rewrite IH. reflexivity.
Qed.

Lemma row_mag_sqr (r : list R) : row_mag r * row_mag r = row_mag_sq r.
Proof.
  unfold row_mag. apply sqrt_sqrt, row_mag_sq_nonneg.
Qed.

Lemma row_mag_nonneg (r : list R) : 0 <= row_mag r.
Proof. apply sqrt_pos. Qed.

Lemma nth_vector_mag_sq (v : ndarray) (i : nat) :
  (i < length (rows v))%nat ->
  nth i (vector_mag_sq v) 0 = row_mag_sq (row v i).
Proof.
  intros Hi. unfold vector_mag_sq, row.
  rewrite (nth_indep _ 0 (row_mag_sq [])) by (rewrite length_map; exact Hi).
  apply map_nth.
Qed.

Lemma nth_vector_mag (v : ndarray) (i : nat) :
  (i < length (rows v))%nat ->
  nth i (vector_mag v) 0 = row_mag (row v i).
Proof.
  intros Hi. unfold vector_mag.
  rewrite (nth_indep _ 0 (sqrt 0)) by (unfold vector_mag_sq; rewrite !length_map; exact Hi).
  rewrite map_nth, nth_vector_mag_sq by exact Hi. reflexivity.
Qed.

(** ** C5: magnitudes *)

(** C5.  [vector_mag_sq v] has one entry per vector of the batch; entry [i]
    is the sum over the last axis of the squared components of vector [i],
    it is nonnegative, entry [i] of [vector_mag v] is its square root, and
    the square of that entry is entry [i] of [vector_mag_sq v]. *)
Theorem vector_mag_sq_spec (v : ndarray) (i : nat) :
  (i < length (rows v))%nat ->
  length (vector_mag_sq v) = length (rows v) /\
  length (vector_mag v) = length (rows v) /\
  nth i (vector_mag_sq v) 0 =
    sum_upto (fun j => item (row v i) j * item (row v i) j)
             (length (row v i)) /\
  0 <= nth i (vector_mag_sq v) 0 /\
  nth i (vector_mag v) 0 = sqrt (nth i (vector_mag_sq v) 0) /\
  nth i (vector_mag v) 0 * nth i (vector_mag v) 0 = nth i (vector_mag_sq v) 0.
Proof.
  intros Hi.
  rewrite nth_vector_mag, nth_vector_mag_sq by exact Hi.
  unfold vector_mag, vector_mag_sq. rewrite !length_map.
  repeat split.
  - unfold row_mag_sq. apply (sum_map_upto square).
  - apply row_mag_sq_nonneg.
  - apply row_mag_sqr.
Qed.

Lemma vector_mag_sq_spec_witness :
  let v := mk_ndarray 2 [[3; 4]; [0; 0]] in
  length (vector_mag_sq v) = length (rows v) /\
  length (vector_mag v) = length (rows v) /\
  nth 0 (vector_mag_sq v) 0 =
    sum_upto (fun j => item (row v 0) j * item (row v 0) j)
             (length (row v 0)) /\
  0 <= nth 0 (vector_mag_sq v) 0 /\
  nth 0 (vector_mag v) 0 = sqrt (nth 0 (vector_mag_sq v) 0) /\
  nth 0 (vector_mag v) 0 * nth 0 (vector_mag v) 0 = nth 0 (vector_mag_sq v) 0.
Proof.
  intro v. apply (vector_mag_sq_spec v 0). simpl. lia.
Defined.

(** ** C9: perpendicular vectors *)

(** C9.  On an array of shape [(n, 2)], [vector_perp] returns the array of
    the same shape whose row [i] is [(v[i][1], -v[i][0])]; that row is
    orthogonal to row [i] of the input and has the same magnitude.  When
    the last axis does not have length 2, [vector_perp] raises. *)
Theorem vector_perp_spec (v : ndarray) :
  (shape_last v = 2%nat -> well_formed v ->
   exists w, vector_perp v = Ok w /\
     shape_last w = 2%nat /\
     length (rows w) = length (rows v) /\
     forall i, (i < length (rows v))%nat ->
       row w i = [item (row v i) 1; - item (row v i) 0] /\
       dot (row v i) (row w i) = 0 /\
       row_mag (row w i) = row_mag (row v i)) /\
  (shape_last v <> 2%nat -> exists e, vector_perp v = Raise e).
Proof.
  split.
  - intros Hd Hwf. unfold vector_perp. rewrite Hd. cbn [Nat.eqb negb].
    eexists. split; [reflexivity|]. cbn [shape_last rows].
    split; [reflexivity|]. split; [apply length_map|].
    intros i Hi.
    assert (Hrow : row {| shape_last := 2;
                          rows := map (fun r => [item r 1; - item r 0]) (rows v) |} i
                   = [item (row v i) 1; - item (row v i) 0]).
    { unfold row. cbn [rows].
      rewrite (nth_indep _ [] ((fun r => [item r 1; - item r 0]) []))
        by (rewrite length_map; exact Hi).
      apply (map_nth (fun r => [item r 1; - item r 0])). }
    rewrite Hrow. split; [reflexivity|].
    assert (Hlen : length (row v i) = 2%nat).
    { unfold well_formed in Hwf. rewrite Forall_forall in Hwf.
      rewrite <- Hd. apply Hwf. apply nth_In. exact Hi. }
    destruct (row v i) as [|x [|y [|z t]]]; try discriminate Hlen.
    unfold dot, row_mag, row_mag_sq, square, item. cbn.
    split; [ring | f_equal; ring].
  - intros Hd. unfold vector_perp.
    destruct (Nat.eqb_spec (shape_last v) 2) as [E|E]; [contradiction|].
    cbn [negb]. eexists. reflexivity.
Qed.

Lemma vector_perp_spec_witness :
  (exists w, vector_perp (mk_ndarray 2 [[3; 4]; [0; 1]]) = Ok w /\
     shape_last w = 2%nat) /\
  (exists e, vector_perp (mk_ndarray 3 [[3; 4; 5]]) = Raise e).
Proof.
  split.
  - destruct (proj1 (vector_perp_spec (mk_ndarray 2 [[3; 4]; [0; 1]])))
      as [w [Hw [Hs _]]].
    + reflexivity.
    + repeat constructor.
    + exists w. split; assumption.
  - apply (proj2 (vector_perp_spec (mk_ndarray 3 [[3; 4; 5]]))).
    simpl. lia.
Defined.

(** ** C3: unit vectors, null vectors kept *)

Lemma nth_zip_with {A B C : Type} (f : A -> B -> C) (l : list A) (m : list B)
  (i : nat) (da : A) (db : B) (dc : C) :
  (i < length l)%nat -> (i < length m)%nat ->
  nth i (zip_with f l m) dc = f (nth i l da) (nth i m db).
Proof.
  revert m i. induction l as [|a l IH]; intros [|b m] [|i] Hl Hm;
    simpl in *; try lia; try reflexivity.
  apply IH; lia.
Qed.

Lemma length_zip_with {A B C : Type} (f : A -> B -> C) (l : list A)
  (m : list B) :
  length l = length m -> length (zip_with f l m) = length l.
Proof.
  revert m. induction l as [|a l IH]; intros [|b m] H; simpl in *;
    try discriminate; try reflexivity.
  f_equal. apply IH. lia.
Qed.

Lemma length_vector_mag (v : ndarray) :
  length (vector_mag v) = length (rows v).
Proof. unfold vector_mag, vector_mag_sq. now rewrite !length_map. Qed.

Lemma row_mag_sq_div (r : list R) (m : R) :
  m <> 0 -> row_mag_sq (row_div r m) = row_mag_sq r / (m * m).
Proof.
  intros Hm. unfold row_mag_sq, row_div.
  induction r as [|x r IH]; cbn [map sum fold_right].
  - unfold Rdiv. ring.
  - unfold sum in IH. rewrite IH. unfold square. field. exact Hm.
Qed.

Lemma row_mag_unit (r : list R) :
  row_mag r <> 0 -> row_mag (row_div r (row_mag r)) = 1.
Proof.
  intros Hm. unfold row_mag at 1.
  rewrite row_mag_sq_div by exact Hm.
  rewrite row_mag_sqr.
  replace (row_mag_sq r / row_mag_sq r) with 1.
  - apply sqrt_1.
  - field. rewrite <- row_mag_sqr. nra.
Qed.

Lemma row_mag_sq_zero (r : list R) :
  row_mag_sq r = 0 -> r = repeat 0 (length r).
Proof.
  induction r as [|x r IH]; intros H; [reflexivity|].
  unfold row_mag_sq in H. cbn [map sum fold_right] in H.
  pose proof (row_mag_sq_nonneg r) as Hr. unfold row_mag_sq, sum in Hr.
  change (square x) with (x * x) in H.
  pose proof (Rle_0_sqr x) as Hsq. unfold Rsqr in Hsq.
  assert (Hxx : x * x = 0) by lra.
  assert (Hx : x = 0) by (apply Rmult_integral in Hxx; tauto).
  assert (Hs : row_mag_sq r = 0) by (unfold row_mag_sq, sum; lra).
  cbn [length repeat]. rewrite Hx. f_equal. apply IH, Hs.
Qed.

Lemma row_mag_zero (r : list R) :
  row_mag r = 0 -> r = repeat 0 (length r).
Proof.
  intros H. apply row_mag_sq_zero.
  apply sqrt_eq_0; [apply row_mag_sq_nonneg | exact H].
Qed.

Lemma nonzero_row_mag (r : list R) : nonzero r -> row_mag r <> 0.
Proof.
  intros Hnz Hm. apply row_mag_zero in Hm.
  unfold nonzero in Hnz. rewrite Exists_exists in Hnz.
  destruct Hnz as [x [Hin Hx]]. rewrite Hm in Hin.
  apply repeat_spec in Hin. contradiction.
Qed.

Lemma row_divide_where_positive (v : ndarray) (i : nat) :
  size v <> 0%nat -> (i < length (rows v))%nat ->
  row (vector_unit_nullnull v) i =
    if Rlt_dec 0 (row_mag (row v i))
    then row_div (row v i) (row_mag (row v i)) else row v i.
Proof.
  intros Hsize Hi. unfold vector_unit_nullnull.
  destruct (Nat.eqb_spec (size v) 0) as [E|_]; [contradiction|].
  unfold row at 1. cbn [rows]. unfold divide_where_positive.
  rewrite (nth_zip_with _ _ _ i [] 0 [])
    by (rewrite ?length_vector_mag; exact Hi).
  fold (row v i). rewrite nth_vector_mag by exact Hi. reflexivity.
Qed.

(** C3.  On a non-empty batch, [vector_unit_nullnull] keeps the shape; an
    entry of nonzero magnitude becomes that vector divided by its
    magnitude, which has magnitude 1; an entry of zero magnitude is the
    zero vector and is returned unchanged. *)
Theorem vector_unit_nullnull_spec (v : ndarray) (i : nat) :
  size v <> 0%nat -> (i < length (rows v))%nat ->
  let w := vector_unit_nullnull v in
  let m := nth i (vector_mag v) 0 in
  shape_last w = shape_last v /\
  length (rows w) = length (rows v) /\
  (m <> 0 ->
     row w i = map (fun x => x / m) (row v i) /\ row_mag (row w i) = 1) /\
  (m = 0 ->
     row w i = row v i /\ row v i = repeat 0 (length (row v i))).
Proof.
  intros Hsize Hi w m. subst w m.
  rewrite (row_divide_where_positive _ _ Hsize Hi).
  unfold vector_unit_nullnull.
  destruct (Nat.eqb_spec (size v) 0) as [E|_]; [contradiction|].
  cbn [shape_last rows]. split; [reflexivity|].
  split; [apply length_zip_with; symmetry; apply length_vector_mag|].
  rewrite nth_vector_mag by exact Hi.
  pose proof (row_mag_nonneg (row v i)) as Hge.
  split; intros Hm.
  - destruct (Rlt_dec 0 (row_mag (row v i))) as [_|Hn]; [|lra].
    split; [reflexivity|]. apply row_mag_unit, Hm.
  - destruct (Rlt_dec 0 (row_mag (row v i))) as [Hp|_]; [lra|].
    split; [reflexivity|]. apply row_mag_zero, Hm.
Qed.

Lemma vector_unit_nullnull_spec_witness :
  let v := mk_ndarray 2 [[3; 4]; [0; 0]] in
  let w := vector_unit_nullnull v in
  let m := nth 1 (vector_mag v) 0 in
  shape_last w = shape_last v /\
  length (rows w) = length (rows v) /\
  (m <> 0 ->
     row w 1 = map (fun x => x / m) (row v 1) /\ row_mag (row w 1) = 1) /\
  (m = 0 ->
     row w 1 = row v 1 /\ row v 1 = repeat 0 (length (row v 1))).
Proof.
  intro v. apply (vector_unit_nullnull_spec v 1).
  - unfold size. simpl. lia.
  - simpl. lia.
Defined.

(** ** C6: angles *)

(** C6.  For vectors [a[i]] and [b[i]] that are both nonzero, entry [i] of
    [vector_angle] is assigned, lies in [[0, pi]], is the arccosine of the
    computed cosine when that lies in [[-1, 1]], and otherwise is [0] if the
    dot product is positive and [pi] if not.  The computed cosine is the
    result of the division [fdiv], whatever its rounding. *)
Theorem vector_angle_spec (fdiv : R -> R -> R) (a b : ndarray) (i : nat) :
  length (rows a) = length (rows b) -> (i < length (rows a))%nat ->
  nonzero (row a i) -> nonzero (row b i) ->
  let num := dot (row a i) (row b i) in
  let cos_theta := fdiv num (row_mag (row a i) * row_mag (row b i)) in
  exists theta,
    nth i (vector_angle_with fdiv a b) None = Some theta /\
    0 <= theta <= PI /\
    (Rabs cos_theta <= 1 -> theta = acos cos_theta) /\
    (1 < Rabs cos_theta ->
       (0 < num -> theta = 0) /\ (num <= 0 -> theta = PI)).
Proof.
  intros Hlen Hi Ha Hb num cos_theta.
  unfold vector_angle_with.
  rewrite (nth_zip_with _ _ _ i [] [] None) by (rewrite <- ?Hlen; exact Hi).
  fold (row a i) (row b i). unfold angle_entry.
  apply nonzero_row_mag in Ha, Hb.
  destruct (Req_dec_T (row_mag (row a i) * row_mag (row b i)) 0) as [E|_].
  { apply Rmult_integral in E. tauto. }
  fold num. fold cos_theta.
  pose proof PI_RGT_0 as Hpi.
  destruct (Rle_dec (Rabs cos_theta) 1) as [Hle|Hgt].
  - exists (acos cos_theta). split; [reflexivity|].
    split; [apply acos_bound|]. split; [reflexivity|]. lra.
  - destruct (Rlt_dec 0 num) as [Hp|Hn].
    + exists 0. repeat split; try lra.
    + exists PI. repeat split; try lra.
Qed.

(** With exact division the cosine never leaves [[-1, 1]]
    (Cauchy-Schwarz), so [vector_angle] is the arccosine throughout. *)
Lemma dot_sqr_le (a b : list R) :
  dot a b * dot a b <= row_mag_sq a * row_mag_sq b.
Proof.
  revert b. induction a as [|x a IH]; intros [|y b];
    unfold dot, row_mag_sq; cbn [zip_with map sum fold_right].
  - lra.
  - lra.
  - pose proof (row_mag_sq_nonneg (x :: a)) as H.
    unfold row_mag_sq in H. cbn [map sum fold_right] in H. lra.
  - specialize (IH b). unfold dot, row_mag_sq, sum in IH.
    pose proof (row_mag_sq_nonneg a) as HA.
    pose proof (row_mag_sq_nonneg b) as HB.
    unfold row_mag_sq, sum in HA, HB. unfold square at 1 3.
    set (D := fold_right Rplus 0 (zip_with Rmult a b)) in *.
    set (A := fold_right Rplus 0 (map square a)) in *.
    set (B := fold_right Rplus 0 (map square b)) in *.
    assert (Hkey : 2 * (x * y * D) <= x * x * B + y * y * A).
    { destruct (Rle_lt_or_eq_dec 0 B HB) as [HBpos|HB0].
      - assert (0 <= B * (x * x * B + y * y * A - 2 * (x * y * D))).
        { replace (B * (x * x * B + y * y * A - 2 * (x * y * D)))
            with ((x * B - y * D) * (x * B - y * D)
                  + y * y * (A * B - D * D)) by ring.
          pose proof (Rle_0_sqr (x * B - y * D)) as H1. unfold Rsqr in H1.
          pose proof (Rle_0_sqr y) as H2. unfold Rsqr in H2.
          assert (0 <= y * y * (A * B - D * D))
            by (apply Rmult_le_pos; lra).
          lra. }
        nra.
      - rewrite <- HB0 in *. 
        assert (HD : D * D = 0)
          by (pose proof (Rle_0_sqr D) as H1; unfold Rsqr in H1; lra).
        apply Rmult_integral in HD.
        assert (D = 0) by tauto. subst D.
        pose proof (Rle_0_sqr y) as H2. unfold Rsqr in H2.
        assert (0 <= y * y * A) by (apply Rmult_le_pos; lra).
        replace (fold_right Rplus 0 (zip_with Rmult a b)) with 0 by auto.
        lra. }
    nra.
Qed.

Lemma vector_angle_exact (a b : ndarray) (i : nat) :
  length (rows a) = length (rows b) -> (i < length (rows a))%nat ->
  nonzero (row a i) -> nonzero (row b i) ->
  nth i (vector_angle a b) None
  = Some (acos (dot (row a i) (row b i)
                / (row_mag (row a i) * row_mag (row b i)))).
Proof.
  intros Hlen Hi Ha Hb. unfold vector_angle, vector_angle_with.
  rewrite (nth_zip_with _ _ _ i [] [] None) by (rewrite <- ?Hlen; exact Hi).
  fold (row a i) (row b i). unfold angle_entry.
  apply nonzero_row_mag in Ha, Hb.
  destruct (Req_dec_T (row_mag (row a i) * row_mag (row b i)) 0) as [E|Hden].
  { apply Rmult_integral in E. tauto. }
  destruct (Rle_dec _ 1) as [_|Hout]; [reflexivity|].
  exfalso. apply Hout. clear Hout.
  pose proof (dot_sqr_le (row a i) (row b i)) as Hcs.
  rewrite <- !row_mag_sqr in Hcs.
  pose proof (row_mag_nonneg (row a i)) as H1.
  pose proof (row_mag_nonneg (row b i)) as H2.
  set (n := dot (row a i) (row b i)) in *.
  set (d := row_mag (row a i) * row_mag (row b i)) in *.
  assert (Hd : 0 < d) by (unfold d; nra).
  assert (Hc : n / d * d = n) by (field; lra).
  set (c := n / d) in *.
  assert (Hsq : c * c <= 1).
  { assert (c * c * (d * d) <= 1 * (d * d)) by (unfold d in *; nra).
    apply (Rmult_le_reg_r (d * d)); nra. }
  apply Rabs_le. split; nra.
Qed.

Lemma vector_angle_spec_witness :
  exists theta,
    nth 0 (vector_angle_with Rdiv (mk_ndarray 2 [[1; 0]])
                                  (mk_ndarray 2 [[0; 1]])) None = Some theta /\
    0 <= theta <= PI.
Proof.
  destruct (vector_angle_spec Rdiv (mk_ndarray 2 [[1; 0]])
              (mk_ndarray 2 [[0; 1]]) 0) as [theta [H1 [H2 _]]].
  - reflexivity.
  - simpl. lia.
  - apply Exists_cons_hd. lra.
  - apply Exists_cons_tl, Exists_cons_hd. lra.
  - exists theta. split; assumption.
Defined.

(** ** C4: polar and cartesian coordinates *)

Lemma tan_ratio (r theta : R) :
  0 < r -> cos theta <> 0 ->
  r * sin theta / (r * cos theta) = tan theta.
Proof.
  intros Hr Hc. unfold tan. field. split; lra.
Qed.

Lemma arctan2_polar (r theta : R) :
  0 < r -> - PI < theta <= PI ->
  arctan2 (r * sin theta) (r * cos theta) = theta.
Proof.
  intros Hr [Hlo Hhi]. pose proof PI_RGT_0 as Hpi. unfold arctan2.
  destruct (Rtotal_order theta (- (PI / 2))) as [Hlt|[Heq|Hgt]].
  - (* theta in (-pi, -pi/2) *)
    assert (Hc : 0 < cos (theta + PI)) by (apply cos_gt_0; lra).
    rewrite neg_cos in Hc.
    assert (Hs : sin theta < 0) by (apply sin_lt_0_var; lra).
    destruct (Rlt_dec 0 (r * cos theta)) as [H|_]; [nra|].
    destruct (Rlt_dec (r * cos theta) 0) as [_|H]; [|nra].
    destruct (Rle_dec 0 (r * sin theta)) as [H|_]; [nra|].
    rewrite tan_ratio by lra.
    replace (tan theta) with (tan (theta + PI)).
    + rewrite atan_tan by lra. lra.
    + unfold tan. rewrite neg_sin, neg_cos. field. lra.
  - (* theta = -pi/2 *)
    subst theta. rewrite cos_neg, sin_neg, cos_PI2, sin_PI2.
    destruct (Rlt_dec 0 (r * 0)) as [H|_]; [lra|].
    destruct (Rlt_dec (r * 0) 0) as [H|_]; [lra|].
    destruct (Rlt_dec 0 (r * - (1))) as [H|_]; [lra|].
    destruct (Rlt_dec (r * - (1)) 0) as [_|H]; [reflexivity|lra].
  - destruct (Rtotal_order theta (PI / 2)) as [Hlt2|[Heq2|Hgt2]].
    + (* theta in (-pi/2, pi/2) *)
      assert (Hc : 0 < cos theta) by (apply cos_gt_0; lra).
      destruct (Rlt_dec 0 (r * cos theta)) as [_|H]; [|nra].
      rewrite tan_ratio by lra. apply atan_tan. lra.
    + (* theta = pi/2 *)
      subst theta. rewrite cos_PI2, sin_PI2.
      destruct (Rlt_dec 0 (r * 0)) as [H|_]; [lra|].
      destruct (Rlt_dec (r * 0) 0) as [H|_]; [lra|].
      destruct (Rlt_dec 0 (r * 1)) as [_|H]; [reflexivity|lra].
    + (* theta in (pi/2, pi] *)
      assert (Hc : cos theta < 0) by (apply cos_lt_0; lra).
      assert (Hs : 0 <= sin theta) by (apply sin_ge_0; lra).
      destruct (Rlt_dec 0 (r * cos theta)) as [H|_]; [nra|].
      destruct (Rlt_dec (r * cos theta) 0) as [_|H]; [|nra].
      destruct (Rle_dec 0 (r * sin theta)) as [_|H]; [|nra].
      rewrite tan_ratio by lra.
      replace (tan theta) with (tan (theta - PI)).
      * rewrite atan_tan by lra. lra.
      * unfold tan.
        replace (sin theta) with (- sin (theta - PI))
          by (rewrite <- neg_sin; f_equal; ring).
        replace (cos theta) with (- cos (theta - PI))
          by (rewrite <- neg_cos; f_equal; ring).
        field. intro E.
        assert (cos theta = 0)
          by (replace theta with (theta - PI + PI) by ring;
              rewrite neg_cos; lra).
        lra.
Qed.

Lemma row_mag_polar2 (r theta : R) :
  0 <= r -> row_mag [r * cos theta; r * sin theta] = r.
Proof.
  intros Hr. unfold row_mag, row_mag_sq, square. cbn [map sum fold_right].
  replace (r * cos theta * (r * cos theta) + (r * sin theta * (r * sin theta) + 0))
    with (r * r * (Rsqr (sin theta) + Rsqr (cos theta)))
    by (unfold Rsqr; ring).
  rewrite sin2_cos2, Rmult_1_r. apply sqrt_square, Hr.
Qed.

Lemma ndarray_eta (v : ndarray) : mk_ndarray (shape_last v) (rows v) = v.
Proof. destruct v; reflexivity. Qed.

(** C4.  On 2-D polar vectors [(r, theta)] with [r > 0] and [theta] in
    [(-pi, pi]], [cart_to_polar] undoes [polar_to_cart]; on 1-D vectors
    both conversions return the input. *)
Theorem polar_cart_roundtrip :
  (forall arr_p : ndarray,
     shape_last arr_p = 2%nat ->
     Forall (fun p => length p = 2%nat /\ 0 < item p 0 /\
                      - PI < item p 1 <= PI) (rows arr_p) ->
     exists arr_c, polar_to_cart arr_p = Ok arr_c /\
                   cart_to_polar arr_c = Ok arr_p) /\
  (forall arr : ndarray,
     shape_last arr = 1%nat ->
     polar_to_cart arr = Ok arr /\ cart_to_polar arr = Ok arr).
Proof.
  split.
  - intros [d rs]. cbn [shape_last rows]. intros Hd Hrows. subst d.
    unfold polar_to_cart. cbn [shape_last rows Nat.eqb].
    eexists. split; [reflexivity|].
    unfold cart_to_polar. cbn [shape_last rows Nat.eqb].
    do 2 f_equal. rewrite map_map.
    rewrite <- (map_id rs) at 2. apply map_ext_in.
    intros p Hp. rewrite Forall_forall in Hrows.
    destruct (Hrows p Hp) as [Hlen [Hr Ht]].
    destruct p as [|r [|theta [|z t]]]; try discriminate Hlen.
    unfold item in *. cbn [nth] in *.
    rewrite row_mag_polar2 by lra.
    rewrite arctan2_polar by assumption. reflexivity.
  - intros arr Hd. unfold polar_to_cart, cart_to_polar. rewrite Hd.
    cbn [Nat.eqb]. rewrite <- Hd, ndarray_eta. split; reflexivity.
Qed.

Lemma polar_cart_roundtrip_witness :
  (exists arr_c, polar_to_cart (mk_ndarray 2 [[2; 0]]) = Ok arr_c /\
                 cart_to_polar arr_c = Ok (mk_ndarray 2 [[2; 0]])) /\
  (polar_to_cart (mk_ndarray 1 [[5]]) = Ok (mk_ndarray 1 [[5]]) /\
   cart_to_polar (mk_ndarray 1 [[5]]) = Ok (mk_ndarray 1 [[5]])).
Proof.
  split.
  - apply (proj1 polar_cart_roundtrip (mk_ndarray 2 [[2; 0]])).
    + reflexivity.
    + constructor; [|constructor]. unfold item. cbn [nth length].
      pose proof PI_RGT_0. repeat split; lra.
  - apply (proj2 polar_cart_roundtrip (mk_ndarray 1 [[5]])). reflexivity.
Defined.

(** ** The samplers, computed *)

Lemma np_shape_ok (n d : Z) :
  (0 <= n)%Z -> (0 <= d)%Z -> np_shape n d = Ok (Z.to_nat n, Z.to_nat d).
Proof.
  intros Hn Hd. unfold np_shape.
  destruct (Z.ltb_spec n 0); [lia|]. destruct (Z.ltb_spec d 0); [lia|].
  reflexivity.
Qed.

Lemma np_shape_negative (n d : Z) :
  (n < 0 \/ d < 0)%Z -> raises (np_shape n d).
Proof.
  intros H. unfold np_shape, raises.
  destruct (Z.ltb_spec n 0); [eexists; reflexivity|].
  destruct (Z.ltb_spec d 0); [eexists; reflexivity|lia].
Qed.

Lemma length_draws (s : RandomState) (n : nat) : length (draws s n) = n.
Proof. unfold draws. now rewrite length_map, length_seq. Qed.

Lemma draws_valid (s : RandomState) (n : nat) :
  valid_tape s -> Forall (fun u => 0 <= u < 1) (draws s n).
Proof.
  intros Hv. unfold draws. apply Forall_forall. intros u Hu.
  apply in_map_iff in Hu. destruct Hu as [i [<- _]]. apply Hv.
Qed.


Lemma sphere_pick_polar_1 (n : Z) (s : RandomState) :
  (0 <= n)%Z ->
  sphere_pick_polar 1 n s =
    (Ok (mk_ndarray 1
           (map (fun u => [IZR (Zfloor (INR 2 * u)) * 2 - 1])
                (draws s (Z.to_nat n)))),
     advance (Z.to_nat n) s).
Proof.
  intros Hn. unfold sphere_pick_polar, bind, lift.
  rewrite np_shape_ok by lia. cbn [Z.eqb Pos.eqb].
  unfold randint, bind, random_sample, ret. rewrite map_map. reflexivity.
Qed.

Lemma sphere_pick_polar_2 (n : Z) (s : RandomState) :
  (0 <= n)%Z ->
  sphere_pick_polar 2 n s =
    (Ok (mk_ndarray 2
           (map (fun u => [1; - PI + (PI - - PI) * u])
                (draws s (Z.to_nat n)))),
     advance (Z.to_nat n) s).
Proof.
  intros Hn. unfold sphere_pick_polar, bind, lift.
  rewrite np_shape_ok by lia. cbn [Z.eqb Pos.eqb].
  unfold uniform, bind, random_sample, ret. rewrite map_map. reflexivity.
Qed.

Lemma sphere_pick_polar_3 (n : Z) (s : RandomState) :
  (0 <= n)%Z ->
  let k := Z.to_nat n in
  let uv := map (fun u => 0 + (1 - 0) * u) (draws s (2 * k)) in
  sphere_pick_polar 3 n s =
    (Ok (mk_ndarray 3
           (zip_with (fun ui vi => [1; acos (2 * vi - 1); 2 * PI * ui])
                     (firstn k uv) (skipn k uv))),
     advance (2 * k) s).
Proof.
  intros Hn k uv. unfold sphere_pick_polar, bind, lift.
  rewrite np_shape_ok by lia. cbn [Z.eqb Pos.eqb].
  unfold uniform, bind, random_sample, ret. reflexivity.
Qed.

Lemma sphere_pick_polar_invalid (d n : Z) (s : RandomState) :
  ~ valid_dim d -> raises (fst (sphere_pick_polar d n s)).
Proof.
  intros Hd. unfold sphere_pick_polar, bind, lift.
  destruct (Z_lt_le_dec n 0) as [Hn|Hn];
    [|destruct (Z_lt_le_dec d 0) as [Hd0|Hd0]].
  - destruct (np_shape_negative n d (or_introl Hn)) as [e ->].
    eexists. reflexivity.
  - destruct (np_shape_negative n d (or_intror Hd0)) as [e ->].
    eexists. reflexivity.
  - rewrite np_shape_ok by lia. unfold valid_dim in Hd.
    destruct (Z.eqb_spec d 1); [tauto|].
    destruct (Z.eqb_spec d 2); [tauto|].
    destruct (Z.eqb_spec d 3); [tauto|].
    eexists. reflexivity.
Qed.

Lemma sphere_pick_polar_negative (d n : Z) (s : RandomState) :
  (n < 0)%Z -> raises (fst (sphere_pick_polar d n s)).
Proof.
  intros Hn. unfold sphere_pick_polar, bind, lift.
  destruct (np_shape_negative n d (or_introl Hn)) as [e ->].
  eexists. reflexivity.
Qed.

Lemma Forall_zip_with {A B C : Type} (f : A -> B -> C) (P : C -> Prop)
  (l : list A) (m : list B) :
  (forall a b, In a l -> In b m -> P (f a b)) -> Forall P (zip_with f l m).
Proof.
  revert m. induction l as [|a l IH]; intros [|b m] H; cbn [zip_with];
    try constructor.
  - apply H; left; reflexivity.
  - apply IH. intros a' b' Ha Hb. apply H; right; assumption.
Qed.

Lemma Forall_map_intro {A B : Type} (f : A -> B) (P : B -> Prop)
  (l : list A) :
  (forall a, In a l -> P (f a)) -> Forall P (map f l).
Proof.
  intros H. apply Forall_forall. intros b Hb. apply in_map_iff in Hb.
  destruct Hb as [a [<- Ha]]. apply H, Ha.
Qed.


(** ** C10: which calls raise *)






(** ** C7: samples on the unit sphere *)

Lemma randint_2_values (u : R) :
  0 <= u < 1 ->
  IZR (Zfloor (INR 2 * u)) = 0 \/ IZR (Zfloor (INR 2 * u)) = 1.
Proof.
  intros Hu. replace (INR 2) with 2 by (simpl; ring).
  pose proof (Zfloor_bound (2 * u)) as [Hlo Hhi].
  assert (H1 : (Zfloor (2 * u) < 2)%Z) by (apply lt_IZR; lra).
  assert (H2 : (-1 < Zfloor (2 * u))%Z).
  { apply lt_IZR. lra. }
  assert (Hz : Zfloor (2 * u) = 0%Z \/ Zfloor (2 * u) = 1%Z) by lia.
  destruct Hz as [-> | ->]; [left|right]; reflexivity.
Qed.

Lemma row_mag_signed_unit (x : R) : x = 1 \/ x = -1 -> row_mag [x] = 1.
Proof.
  intros Hx. unfold row_mag, row_mag_sq, square. cbn [map sum fold_right].
  replace (x * x + 0) with 1 by (destruct Hx; subst x; ring).
  apply sqrt_1.
Qed.

Lemma row_mag_polar3 (r inc az : R) :
  0 <= r ->
  row_mag [r * sin inc * cos az; r * sin inc * sin az; r * cos inc] = r.
Proof.
  intros Hr. unfold row_mag, row_mag_sq, square. cbn [map sum fold_right].
  replace (r * sin inc * cos az * (r * sin inc * cos az) +
           (r * sin inc * sin az * (r * sin inc * sin az) +
            (r * cos inc * (r * cos inc) + 0)))
    with (r * r * (Rsqr (sin inc) * (Rsqr (sin az) + Rsqr (cos az))
                   + Rsqr (cos inc)))
    by (unfold Rsqr; ring).
  rewrite sin2_cos2, Rmult_1_r, sin2_cos2, Rmult_1_r.
  apply sqrt_square, Hr.
Qed.

(** The samples of [sphere_pick_polar] and their cartesian form. *)
Lemma sphere_pick_polar_and_cart (d n : Z) (s : RandomState) :
  valid_dim d -> (0 <= n)%Z -> valid_tape s ->
  exists p c s',
    sphere_pick_polar d n s = (Ok p, s') /\
    sphere_pick d n s = (Ok c, s') /\
    length (rows p) = Z.to_nat n /\
    length (rows c) = Z.to_nat n /\
    Forall (fun r => row_mag r = 1) (rows c) /\
    Forall (fun r => if (d =? 1)%Z then r = [1] \/ r = [-1]
                     else item r 0 = 1) (rows p).
Proof.
  intros [-> | [-> | ->]] Hn Hv; unfold sphere_pick, bind.
  - rewrite sphere_pick_polar_1 by exact Hn.
    do 3 eexists. split; [reflexivity|].
    unfold lift, polar_to_cart. cbn [shape_last rows Nat.eqb Z.eqb Pos.eqb].
    split; [reflexivity|]. cbn [rows].
    rewrite length_map, length_draws. do 2 (split; [reflexivity|]).
    pose proof (draws_valid s (Z.to_nat n) Hv) as Hd.
    rewrite Forall_forall in Hd.
    split; apply Forall_map_intro; intros u Hu;
      destruct (randint_2_values u (Hd u Hu)) as [E|E]; rewrite E.
    + apply row_mag_signed_unit. right. ring.
    + apply row_mag_signed_unit. left. ring.
    + right. f_equal. ring.
    + left. f_equal. ring.
  - rewrite sphere_pick_polar_2 by exact Hn.
    do 3 eexists. split; [reflexivity|].
    unfold lift, polar_to_cart. cbn [shape_last rows Nat.eqb Z.eqb Pos.eqb].
    split; [reflexivity|]. cbn [rows].
    rewrite !length_map, length_draws. do 2 (split; [reflexivity|]).
    split.
    + rewrite map_map. apply Forall_map_intro. intros u _.
      unfold item. cbn [nth]. apply row_mag_polar2. lra.
    + apply Forall_map_intro. reflexivity.
  - rewrite sphere_pick_polar_3 by exact Hn.
    do 3 eexists. split; [reflexivity|].
    unfold lift, polar_to_cart. cbn [shape_last rows Nat.eqb Z.eqb Pos.eqb].
    split; [reflexivity|]. cbn [rows].
    assert (Hlen : forall (f : R -> R -> list R) (g : R -> R),
               length (zip_with f
                         (firstn (Z.to_nat n)
                            (map g (draws s (2 * Z.to_nat n))))
                         (skipn (Z.to_nat n)
                            (map g (draws s (2 * Z.to_nat n)))))
               = Z.to_nat n).
    { intros f g. rewrite length_zip_with;
        rewrite ?length_firstn, ?length_skipn, ?length_map, ?length_draws;
        lia. }
    rewrite length_map, Hlen. do 2 (split; [reflexivity|]).
    split.
    + apply Forall_map_intro. intros r Hr.
      assert (Hr0 : item r 0 = 1).
      { revert r Hr. apply Forall_forall, Forall_zip_with. reflexivity. }
      rewrite Hr0. apply row_mag_polar3. lra.
    + apply Forall_zip_with. reflexivity.
Qed.

(** C7.  For [d] in {1, 2, 3}, a sample count [n >= 0] and any outcome of
    the random draws, [sphere_pick d n] returns [n] vectors of magnitude 1;
    the rows of [sphere_pick_polar d n] have radius component 1 for [d] in
    {2, 3} and are [+1] or [-1] for [d = 1]. *)
Theorem sphere_pick_on_unit_sphere (d n : Z) (s : RandomState) :
  valid_dim d -> (0 <= n)%Z -> valid_tape s ->
  exists p c s',
    sphere_pick_polar d n s = (Ok p, s') /\
    sphere_pick d n s = (Ok c, s') /\
    length (rows p) = Z.to_nat n /\
    length (rows c) = Z.to_nat n /\
    Forall (fun r => row_mag r = 1) (rows c) /\
    Forall (fun r => if (d =? 1)%Z then r = [1] \/ r = [-1]
                     else item r 0 = 1) (rows p).
Proof. exact (sphere_pick_polar_and_cart d n s). Qed.

Lemma sphere_pick_on_unit_sphere_witness :
  exists c s',
    sphere_pick 3 2 (constant_state (1 / 2)) = (Ok c, s') /\
    length (rows c) = 2%nat /\
    Forall (fun r => row_mag r = 1) (rows c).
Proof.
  destruct (sphere_pick_on_unit_sphere 3 2 (constant_state (1 / 2)))
    as [p [c [s' [_ [H1 [_ [H2 [H3 _]]]]]]]].
  - unfold valid_dim. lia.
  - lia.
  - intros i. cbn [constant_state tape]. lra.
  - exists c, s'. repeat split; assumption.
Defined.

(** ** The other two null-vector policies *)

Lemma vector_mag_rows (v : ndarray) : vector_mag v = map row_mag (rows v).
Proof. unfold vector_mag, vector_mag_sq. now rewrite map_map. Qed.

(** [vector_unit_nonull] agrees with [vector_unit_nullnull] on every vector
    of nonzero magnitude. *)
Lemma vector_unit_nonull_nonzero (v : ndarray) (i : nat) :
  size v <> 0%nat -> (i < length (rows v))%nat ->
  row_mag (row v i) <> 0 ->
  row (vector_unit_nonull v) i = row (vector_unit_nullnull v) i.
Proof.
  intros Hsize Hi Hm. rewrite row_divide_where_positive by assumption.
  unfold vector_unit_nonull.
  destruct (Nat.eqb_spec (size v) 0) as [E|_]; [contradiction|].
  unfold row at 1. cbn [rows].
  rewrite (nth_zip_with _ _ _ i [] 0 [])
    by (rewrite ?length_vector_mag; exact Hi).
  fold (row v i). rewrite nth_vector_mag by exact Hi.
  pose proof (row_mag_nonneg (row v i)).
  destruct (Rlt_dec 0 (row_mag (row v i))); [reflexivity|lra].
Qed.

Lemma unit_after_assignment (rs picks : list (list R)) :
  Forall (fun p => row_mag p = 1) picks ->
  length picks = count_zero (map row_mag rs) ->
  Forall (fun r => row_mag r = 1)
    (divide_where_positive
       (assign_where_zero rs (map row_mag rs) picks) (map row_mag rs)).
Proof.
  revert picks. induction rs as [|r rs IH]; intros picks Hp Hlen.
  - constructor.
  - unfold count_zero in Hlen. cbn [map filter] in Hlen.
    cbn [map assign_where_zero].
    pose proof (row_mag_nonneg r) as Hge.
    destruct (Req_dec_T (row_mag r) 0) as [E|E].
    + destruct picks as [|p picks]; [discriminate Hlen|].
      unfold divide_where_positive. cbn [zip_with].
      destruct (Rlt_dec 0 (row_mag r)) as [Hpos|_]; [lra|].
      constructor; [exact (Forall_inv Hp)|].
      apply IH; [exact (Forall_inv_tail Hp)|].
      cbn [length] in Hlen. unfold count_zero. lia.
    + unfold divide_where_positive. cbn [zip_with].
      destruct (Rlt_dec 0 (row_mag r)) as [_|Hn]; [|lra].
      constructor; [apply row_mag_unit, E|].
      apply IH; assumption.
Qed.

(** [vector_unit_nullrand] returns unit vectors only: the null vectors are
    replaced by samples of the unit sphere, the others are normalised. *)
Lemma vector_unit_nullrand_unit (v : ndarray) (s : RandomState) :
  size v <> 0%nat -> valid_dim (Z.of_nat (shape_last v)) -> valid_tape s ->
  exists w s',
    vector_unit_nullrand v s = (Ok w, s') /\
    Forall (fun r => row_mag r = 1) (rows w).
Proof.
  intros Hsize Hd Hv. unfold vector_unit_nullrand.
  destruct (Nat.eqb_spec (size v) 0) as [E|_]; [contradiction|].
  unfold bind at 1.
  destruct (sphere_pick_polar_and_cart (Z.of_nat (shape_last v))
              (Z.of_nat (count_zero (vector_mag v))) s Hd
              (Nat2Z.is_nonneg _) Hv)
    as [p [c [s' [_ [-> [_ [Hlen [Hunit _]]]]]]]].
  unfold ret. do 2 eexists. split; [reflexivity|]. cbn [rows].
  rewrite vector_mag_rows in *. apply unit_after_assignment; [exact Hunit|].
  rewrite Hlen. apply Nat2Z.id.
Qed.

(** ** C8: samples in the unit disk *)

Lemma disk_pick_polar_eq (n : Z) (s : RandomState) :
  (0 <= n)%Z ->
  let k := Z.to_nat n in
  disk_pick_polar n s =
    (Ok (mk_ndarray 2
           (zip_with (fun u t => [sqrt u; t])
              (map (fun u => 0 + (1 - 0) * u) (draws s k))
              (map (fun u => 0 + (2 * PI - 0) * u) (draws (advance k s) k)))),
     advance k (advance k s)).
Proof.
  intros Hn k. unfold disk_pick_polar, bind, lift.
  rewrite np_shape_ok by lia.
  unfold uniform, bind, random_sample, ret. reflexivity.
Qed.

Lemma nth_map_real (f : R -> R) (l : list R) (i : nat) :
  (i < length l)%nat -> nth i (map f l) 0 = f (nth i l 0).
Proof.
  intros Hi. rewrite (nth_indep _ 0 (f 0)) by (now rewrite length_map).
  apply map_nth.
Qed.

Lemma nth_draws (s : RandomState) (n i : nat) :
  (i < n)%nat -> nth i (draws s n) 0 = tape s (pos s + i).
Proof.
  intros Hi. unfold draws.
  rewrite (nth_indep _ 0 (tape s 0)) by (now rewrite length_map, length_seq).
  rewrite map_nth, seq_nth by exact Hi. reflexivity.
Qed.

(** C8.  For a sample count [n >= 0] and any outcome of the random draws,
    [disk_pick n] returns [n] vectors of magnitude at most 1: row [i] of
    [disk_pick_polar n] is [(sqrt u, t)], where [u] is sample [i] of the
    random state, a number of [[0, 1)], and [t] is [2 pi] times sample
    [n + i]; row [i] of [disk_pick n] is [(sqrt u cos t, sqrt u sin t)],
    of magnitude [sqrt u]. *)
Theorem disk_pick_in_unit_disk (n : Z) (s : RandomState) :
  (0 <= n)%Z -> valid_tape s ->
  exists p c s',
    disk_pick_polar n s = (Ok p, s') /\
    disk_pick n s = (Ok c, s') /\
    length (rows p) = Z.to_nat n /\
    length (rows c) = Z.to_nat n /\
    Forall (fun r => row_mag r <= 1) (rows c) /\
    forall i, (i < Z.to_nat n)%nat ->
      let u := tape s (pos s + i) in
      let t := 2 * PI * tape s (pos s + Z.to_nat n + i) in
      0 <= u < 1 /\
      row p i = [sqrt u; t] /\
      row c i = [sqrt u * cos t; sqrt u * sin t] /\
      row_mag (row c i) = sqrt u /\
      sqrt u <= 1.
Proof.
  intros Hn Hv. unfold disk_pick, bind.
  rewrite disk_pick_polar_eq by exact Hn.
  do 3 eexists. split; [reflexivity|].
  unfold lift, polar_to_cart. cbn [shape_last rows Nat.eqb].
  split; [reflexivity|]. cbn [rows].
  set (k := Z.to_nat n).
  set (squares := map (fun u => 0 + (1 - 0) * u) (draws s k)).
  set (angles := map (fun u => 0 + (2 * PI - 0) * u) (draws (advance k s) k)).
  assert (Hlen : length (zip_with (fun u t => [sqrt u; t]) squares angles) = k).
  { unfold squares, angles.
    rewrite length_zip_with; rewrite ?length_map, !length_draws; reflexivity. }
  rewrite length_map, Hlen. do 2 (split; [reflexivity|]).
  assert (Hrow : forall i, (i < k)%nat ->
            0 <= tape s (pos s + i) < 1 /\
            nth i (zip_with (fun u t => [sqrt u; t]) squares angles) []
            = [sqrt (tape s (pos s + i));
               2 * PI * tape s (pos s + k + i)]).
  { intros i Hi. split; [apply Hv|].
    rewrite (nth_zip_with _ _ _ i 0 0 [])
      by (unfold squares, angles; rewrite length_map, length_draws; exact Hi).
    unfold squares, angles.
    rewrite !nth_map_real by (rewrite length_draws; exact Hi).
    rewrite !nth_draws by exact Hi.
    unfold advance. cbn [tape pos]. f_equal; [f_equal; ring|f_equal; ring]. }
  split.
  - apply Forall_forall. intros r Hr. apply in_map_iff in Hr.
    destruct Hr as [q [<- Hq]]. apply (In_nth _ _ []) in Hq.
    destruct Hq as [i [Hi <-]]. rewrite Hlen in Hi.
    destruct (Hrow i Hi) as [[Hu0 Hu1] ->]. unfold item. cbn [nth].
    rewrite row_mag_polar2 by apply sqrt_pos.
    rewrite <- sqrt_1. apply sqrt_le_1_alt. lra.
  - intros i Hi. cbv zeta. destruct (Hrow i Hi) as [Hu Hp].
    assert (Hle : sqrt (tape s (pos s + i)) <= 1)
      by (rewrite <- sqrt_1; apply sqrt_le_1_alt; lra).
    split; [exact Hu|]. unfold row. cbn [rows].
    split; [exact Hp|].
    rewrite (nth_indep _ []
               ((fun q => [item q 0 * cos (item q 1);
                           item q 0 * sin (item q 1)]) []))
      by (rewrite length_map, Hlen; exact Hi).
    rewrite (map_nth (fun q => [item q 0 * cos (item q 1);
                                item q 0 * sin (item q 1)])).
    rewrite Hp. unfold item. cbn [nth].
    split; [reflexivity|]. split; [|exact Hle].
    apply row_mag_polar2, sqrt_pos.
Qed.

Lemma disk_pick_in_unit_disk_witness :
  exists p c s',
    disk_pick_polar 2 fresh_state = (Ok p, s') /\
    disk_pick 2 fresh_state = (Ok c, s') /\
    Forall (fun r => row_mag r <= 1) (rows c) /\
    row p 1 = [sqrt (tape fresh_state 1); 2 * PI * tape fresh_state 3].
Proof.
  destruct (disk_pick_in_unit_disk 2 fresh_state)
    as [p [c [s' [H1 [H2 [_ [_ [H3 H4]]]]]]]].
  - lia.
  - intros i. unfold fresh_state. cbn [tape]. destruct (i =? 0)%nat; lra.
  - exists p, c, s'. repeat split; try assumption.
    apply (H4 1%nat). change (Z.to_nat 2) with 2%nat. lia.
Defined.

(** ** C2: the samplers and the random state *)















End VectorFacts.

Section NumericsFacts.
Import Numerics.
Local Open Scope Q_scope.

(** ** Loops *)

Lemma foldM_pure {S A : Type} (f : S -> A -> result S) (g : S -> A -> S)
  (l : list A) (s : S) :
  (forall s' x, In x l -> f s' x = Ok (g s' x)) ->
  foldM f l s = Ok (fold_left g l s).
Proof.
  revert s. induction l as [|x l IH]; intros s H; [reflexivity|].
  cbn [foldM fold_left]. rewrite H by (left; reflexivity). cbn [bind].
  apply IH. intros s' y Hy. apply H. right. exact Hy.
Qed.

Lemma fold_left_flat_map {S A B : Type} (g : S -> B -> S) (h : A -> list B)
  (l : list A) (s : S) :
  fold_left (fun s' x => fold_left g (h x) s') l s
  = fold_left g (flat_map h l) s.
Proof.
  revert s. induction l as [|x l IH]; intros s; [reflexivity|].
  cbn [fold_left flat_map]. rewrite fold_left_app. apply IH.
Qed.

Lemma fold_left_map {S A B : Type} (g : S -> B -> S) (h : A -> B)
  (l : list A) (s : S) :
  fold_left (fun s' x => g s' (h x)) l s = fold_left g (map h l) s.
Proof.
  revert s. induction l as [|x l IH]; intros s; [reflexivity|].
  cbn [fold_left map]. apply IH.
Qed.

Lemma fold_left_filter {S A : Type} (g : S -> A -> S) (t : A -> bool)
  (l : list A) (s : S) :
  fold_left (fun s' x => if t x then g s' x else s') l s
  = fold_left g (filter t l) s.
Proof.
  revert s. induction l as [|x l IH]; intros s; [reflexivity|].
  cbn [fold_left filter]. destruct (t x); cbn [fold_left]; apply IH.
Qed.

Lemma fold_left_ext_in {S A : Type} (f g : S -> A -> S) (l : list A) (s : S) :
  (forall s' x, In x l -> f s' x = g s' x) ->
  fold_left f l s = fold_left g l s.
Proof.
  revert s. induction l as [|x l IH]; intros s H; [reflexivity|].
  cbn [fold_left]. rewrite H by (left; reflexivity).
  apply IH. intros s' y Hy. apply H. right. exact Hy.
Qed.

(** ** The acceptance test *)

Lemma Qle_bool_false (x y : Q) : Qle_bool x y = false <-> y < x.
Proof.
  split; intros H.
  - apply Qnot_le_lt. intros Hle. apply Qle_bool_iff in Hle. congruence.
  - destruct (Qle_bool x y) eqn:E; [|reflexivity].
    apply Qle_bool_iff in E. exfalso. apply (Qlt_not_le _ _ H E).
Qed.

Lemma valid_parameters (L R : Q) :
  invalid_parameters L R = false <-> 0 < L /\ 0 < R.
Proof.
  unfold invalid_parameters. rewrite orb_false_iff, !Qle_bool_false.
  reflexivity.
Qed.

Lemma visit_accepts (points : list point) (L R : Q) (rel : NeighborRelation)
  (ij : nat * nat) :
  0 < L ->
  visit points L R rel ij
  = Ok (if accepts points L R ij then record_pair rel ij else rel).
Proof.
  intros HL. unfold visit, squaredDistance.
  apply Qle_bool_false in HL. rewrite HL. reflexivity.
Qed.

(** ** The direct strategy, as a record of accepted pairs *)

Lemma findNeighborsDirect_pairs (points : list point) (L R : Q) :
  0 < L -> 0 < R ->
  findNeighborsDirect points L R
  = Ok (fold_left record_pair
          (filter (accepts points L R) (pairs_direct (length points)))
          (repeat [] (length points))).
Proof.
  intros HL HR. unfold findNeighborsDirect.
  rewrite (proj2 (valid_parameters L R) (conj HL HR)).
  cbv zeta. unfold pairs_direct.
  rewrite <- fold_left_filter, <- fold_left_flat_map.
  apply foldM_pure. intros rel i _.
  rewrite <- fold_left_map.
  apply foldM_pure. intros rel' j _.
  apply visit_accepts, HL.
Qed.

(** ** Recording pairs *)

Lemma length_add_neighbor (i j : nat) (rel : NeighborRelation) :
  length (add_neighbor i j rel) = length rel.
Proof.
  revert i. induction rel as [|ns rel IH]; intros [|i]; cbn; auto.
Qed.

Lemma nth_add_neighbor (i j k : nat) (rel : NeighborRelation) :
  (k < length rel)%nat ->
  nth k (add_neighbor i j rel) []
  = nth k rel [] ++ (if (i =? k)%nat then [j] else []).
Proof.
  revert i k. induction rel as [|ns rel IH]; intros i k Hk; cbn in Hk; [lia|].
  destruct i as [|i], k as [|k]; cbn [add_neighbor nth Nat.eqb].
  - reflexivity.
  - now rewrite app_nil_r.
  - now rewrite app_nil_r.
  - apply IH. lia.
Qed.

Lemma length_record_pairs (pairs : list (nat * nat)) (rel : NeighborRelation) :
  length (fold_left record_pair pairs rel) = length rel.
Proof.
  revert rel. induction pairs as [|ij pairs IH]; intros rel; [reflexivity|].
  cbn [fold_left]. rewrite IH. unfold record_pair.
  now rewrite !length_add_neighbor.
Qed.

Lemma nth_record_pairs (pairs : list (nat * nat)) (rel : NeighborRelation)
  (k : nat) :
  (k < length rel)%nat ->
  nth k (fold_left record_pair pairs rel) []
  = nth k rel [] ++ partners k pairs.
Proof.
  revert rel. induction pairs as [|ij pairs IH]; intros rel Hk.
  - cbn. now rewrite app_nil_r.
  - cbn [fold_left]. rewrite IH
      by (unfold record_pair; now rewrite !length_add_neighbor).
    unfold record_pair.
    rewrite !nth_add_neighbor by (now rewrite ?length_add_neighbor).
    unfold partners. cbn [flat_map]. now rewrite <- !app_assoc.
Qed.

Lemma nth_recorded (pairs : list (nat * nat)) (N k : nat) :
  (k < N)%nat ->
  nth k (fold_left record_pair pairs (repeat [] N)) [] = partners k pairs.
Proof.
  intros Hk. rewrite nth_record_pairs by (now rewrite repeat_length).
  rewrite nth_repeat. reflexivity.
Qed.

Lemma partners_Permutation (k : nat) (p q : list (nat * nat)) :
  Permutation p q -> Permutation (partners k p) (partners k q).
Proof. intros H. unfold partners. apply Permutation_flat_map, H. Qed.

(** ** Sorting *)

Lemma insert_insert (x y : nat) (l : list nat) :
  insert x (insert y l) = insert y (insert x l).
Proof.
  induction l as [|a l IH]; cbn [insert].
  - destruct (Nat.leb_spec x y), (Nat.leb_spec y x); try reflexivity;
      try lia. f_equal; [lia|f_equal; lia].
  - destruct (Nat.leb_spec x a), (Nat.leb_spec y a); cbn [insert];
      destruct (Nat.leb_spec x y), (Nat.leb_spec y x);
      repeat match goal with
             | |- context [(?u <=? ?v)%nat] => destruct (Nat.leb_spec u v)
             end; try lia; try reflexivity.
    + f_equal; [lia|f_equal; lia].
    + now rewrite IH.
    + now rewrite IH.
    + now rewrite IH.
Qed.

Lemma sorted_Permutation (l l' : list nat) :
  Permutation l l' -> sorted l = sorted l'.
Proof.
  induction 1 as [|x l l' _ IH|x y l|l l' l'' _ IH1 _ IH2]; cbn [sorted].
  - reflexivity.
  - now rewrite IH.
  - apply insert_insert.
  - now rewrite IH1.
Qed.

Lemma insert_Permutation (x : nat) (l : list nat) :
  Permutation (x :: l) (insert x l).
Proof.
  induction l as [|y l IH]; cbn [insert]; [reflexivity|].
  destruct (x <=? y)%nat; [reflexivity|].
  rewrite perm_swap. now apply perm_skip.
Qed.

Lemma sorted_is_Permutation (l : list nat) : Permutation l (sorted l).
Proof.
  induction l as [|x l IH]; cbn [sorted]; [reflexivity|].
  rewrite <- insert_Permutation. now apply perm_skip.
Qed.

Lemma insert_ordered (x : nat) (l : list nat) :
  StronglySorted le l -> StronglySorted le (insert x l).
Proof.
  induction 1 as [|y l Hl IH Hy]; cbn [insert].
  - repeat constructor.
  - destruct (Nat.leb_spec x y).
    + constructor; [constructor; assumption|].
      constructor; [assumption|].
      rewrite Forall_forall in *. intros z Hz. specialize (Hy z Hz). lia.
    + constructor; [exact IH|].
      rewrite <- insert_Permutation. constructor; [lia|exact Hy].
Qed.

Lemma sorted_is_ordered (l : list nat) : StronglySorted le (sorted l).
Proof.
  induction l as [|x l IH]; cbn [sorted]; [constructor|].
  apply insert_ordered, IH.
Qed.

(** ** The cell grid *)

Lemma length_update_nth {A : Type} (n : nat) (f : A -> A) (l : list A) :
  length (update_nth n f l) = length l.
Proof.
  revert n. induction l as [|x l IH]; intros [|n]; cbn; auto.
Qed.

Lemma nth_update_nth_same {A : Type} (n : nat) (f : A -> A) (l : list A)
  (d : A) :
  (n < length l)%nat -> nth n (update_nth n f l) d = f (nth n l d).
Proof.
  revert n. induction l as [|x l IH]; intros [|n] H; cbn in *; try lia.
  - reflexivity.
  - apply IH. lia.
Qed.

Lemma nth_update_nth_other {A : Type} (n k : nat) (f : A -> A) (l : list A)
  (d : A) :
  k <> n -> nth k (update_nth n f l) d = nth k l d.
Proof.
  revert n k. induction l as [|x l IH]; intros [|n] [|k] H; cbn;
    try reflexivity; try lia.
  apply IH. lia.
Qed.

Section Grid.
Variable cell : nat -> Z * Z.
Variable C : nat.
Hypothesis cell_in_range :
  forall i, (0 <= fst (cell i) < Z.of_nat C)%Z /\
            (0 <= snd (cell i) < Z.of_nat C)%Z.

Let fill (l : list nat) : list (list (list nat)) :=
  fold_left (fun g i => append_occupant (cell i) i g) l (empty_cells C).

Lemma fill_occupants (l : list nat) :
  length (fill l) = C /\
  forall r, (r < C)%nat ->
    length (nth r (fill l) []) = C /\
    forall c, (c < C)%nat ->
      nth c (nth r (fill l) []) []
      = filter (fun i => if cell_eq_dec (cell i) (Z.of_nat r, Z.of_nat c)
                         then true else false) l.
Proof.
  induction l as [|i l IH] using rev_ind.
  - unfold fill, empty_cells. cbn [fold_left filter].
    split; [apply repeat_length|]. intros r Hr.
    rewrite nth_repeat_lt by exact Hr.
    split; [apply repeat_length|]. intros c Hc.
    apply nth_repeat.
  - destruct IH as [Hlen IH]. unfold fill in *. rewrite fold_left_app.
    cbn [fold_left].
    destruct (cell_in_range i) as [Hr0 Hc0].
    set (g := fold_left _ l _) in *. unfold append_occupant.
    split; [now rewrite length_update_nth|].
    intros r Hr. destruct (IH r Hr) as [Hrow Hocc].
    destruct (Nat.eq_dec r (Z.to_nat (fst (cell i)))) as [Er|Er].
    + rewrite <- Er. rewrite nth_update_nth_same by lia.
      split; [now rewrite length_update_nth|].
      intros c Hc. rewrite filter_app. cbn [filter].
      destruct (Nat.eq_dec c (Z.to_nat (snd (cell i)))) as [Ec|Ec].
      * rewrite <- Ec. rewrite nth_update_nth_same by lia.
        rewrite Hocc by exact Hc.
        destruct (cell_eq_dec (cell i) (Z.of_nat r, Z.of_nat c)) as [_|Hn];
          [reflexivity|].
        exfalso. apply Hn. destruct (cell i) as [a b]. cbn [fst snd] in *.
        f_equal; lia.
      * rewrite nth_update_nth_other by exact Ec.
        rewrite Hocc by exact Hc.
        destruct (cell_eq_dec (cell i) (Z.of_nat r, Z.of_nat c)) as [E|_];
          [|now rewrite app_nil_r].
        exfalso. apply Ec. rewrite E. cbn [snd]. lia.
    + rewrite nth_update_nth_other by exact Er.
      split; [exact Hrow|].
      intros c Hc. rewrite filter_app. cbn [filter].
      rewrite Hocc by exact Hc.
      destruct (cell_eq_dec (cell i) (Z.of_nat r, Z.of_nat c)) as [E|_];
        [|now rewrite app_nil_r].
      exfalso. apply Er. rewrite E. cbn [fst]. lia.
Qed.

End Grid.

Lemma cell_count_positive (L R : Q) : (1 <= cell_count L R)%Z.
Proof. unfold cell_count. lia. Qed.

Lemma cell_index_range (L : Q) (C : Z) (x : Q) :
  (1 <= C)%Z -> (0 <= cell_index L C x < C)%Z.
Proof. intros HC. unfold cell_index, clamp. lia. Qed.

Lemma buildGrid_members (points : list point) (L R : Q) :
  0 < L -> 0 < R ->
  exists g,
    buildGrid points L R = Ok g /\
    side g = cell_count L R /\
    forall rc, in_grid g rc = true ->
      occupants g rc = members points L (cell_count L R) rc.
Proof.
  intros HL HR. unfold buildGrid.
  rewrite (proj2 (valid_parameters L R) (conj HL HR)). cbv zeta.
  eexists. split; [reflexivity|]. cbn [side]. split; [reflexivity|].
  intros [r c] Hin. unfold in_grid in Hin. cbn [side fst snd] in Hin.
  pose proof (cell_count_positive L R) as HC.
  set (C := cell_count L R) in *.
  assert (Hrange : forall i,
             (0 <= fst (cell_of L C (position points i))
              < Z.of_nat (Z.to_nat C))%Z /\
             (0 <= snd (cell_of L C (position points i))
              < Z.of_nat (Z.to_nat C))%Z).
  { intros i. unfold cell_of. cbn [fst snd]. rewrite Z2Nat.id by lia.
    split; apply cell_index_range; exact HC. }
  destruct (fill_occupants _ _ Hrange (seq 0 (length points))) as [_ Hocc].
  unfold occupants. cbn [cells fst snd].
  assert (Hr : (0 <= r < C)%Z) by lia.
  assert (Hc : (0 <= c < C)%Z) by lia.
  destruct (Hocc (Z.to_nat r)) as [_ Hocc']; [lia|].
  rewrite Hocc' by lia. rewrite !Z2Nat.id by lia. reflexivity.
Qed.

(** ** The cell-list strategy, as a record of accepted pairs *)

Lemma in_range (C z : Z) : In z (range C) <-> (0 <= z < C)%Z.
Proof.
  unfold range. rewrite in_map_iff. split.
  - intros [k [<- Hk]]. apply in_seq in Hk. lia.
  - intros Hz. exists (Z.to_nat z). split; [lia|]. apply in_seq. lia.
Qed.

Lemma in_all_cells (C : Z) (rc : Z * Z) :
  In rc (all_cells C) <->
  (0 <= fst rc < C)%Z /\ (0 <= snd rc < C)%Z.
Proof.
  unfold all_cells. rewrite in_flat_map. split.
  - intros [r [Hr Hc]]. apply in_map_iff in Hc. destruct Hc as [c [<- Hc]].
    cbn [fst snd]. split; apply in_range; assumption.
  - intros [Hr Hc]. exists (fst rc). split; [apply in_range, Hr|].
    apply in_map_iff. exists (snd rc). split; [now destruct rc|].
    apply in_range, Hc.
Qed.

Lemma in_block (C : Z) (rc b : Z * Z) :
  In b (block C rc) <->
  exists dr dc, In dr offsets /\ In dc offsets /\
                b = ((fst rc + dr) mod C, (snd rc + dc) mod C)%Z.
Proof.
  unfold block. rewrite nodup_In, in_flat_map. split.
  - intros [dr [Hdr Hb]]. apply in_map_iff in Hb.
    destruct Hb as [dc [<- Hdc]]. exists dr, dc. auto.
  - intros [dr [dc [Hdr [Hdc ->]]]]. exists dr. split; [exact Hdr|].
    apply in_map_iff. exists dc. auto.
Qed.

Lemma block_in_range (C : Z) (rc b : Z * Z) :
  (1 <= C)%Z -> In b (block C rc) ->
  (0 <= fst b < C)%Z /\ (0 <= snd b < C)%Z.
Proof.
  intros HC Hb. apply in_block in Hb. destruct Hb as [dr [dc [_ [_ ->]]]].
  cbn [fst snd]. split; apply Z.mod_pos_bound; lia.
Qed.

Lemma in_grid_true (g : CellGrid) (rc : Z * Z) :
  (0 <= fst rc < side g)%Z /\ (0 <= snd rc < side g)%Z ->
  in_grid g rc = true.
Proof.
  intros [[H1 H2] [H3 H4]]. unfold in_grid.
  apply Z.leb_le in H1, H3. apply Z.ltb_lt in H2, H4.
  now rewrite H1, H2, H3, H4.
Qed.

Lemma cell_occupants_members (m : mode) (g : CellGrid) (points : list point)
  (L : Q) (rc : Z * Z) :
  (forall rc', in_grid g rc' = true ->
     occupants g rc' = members points L (side g) rc') ->
  in_grid g rc = true ->
  cell_occupants m g rc = Ok (members points L (side g) rc).
Proof.
  intros Hocc Hin. unfold cell_occupants. rewrite Hin, Hocc by exact Hin.
  now destruct m.
Qed.

Lemma findNeighborsCellList_pairs (points : list point) (L R : Q) (m : mode) :
  0 < L -> 0 < R ->
  findNeighborsCellList points L R m
  = Ok (fold_left record_pair
          (filter (accepts points L R)
             (pairs_cell_list points L (cell_count L R)))
          (repeat [] (length points))).
Proof.
  intros HL HR. unfold findNeighborsCellList.
  pose proof (proj2 (valid_parameters L R) (conj HL HR)) as Hvalid.
  replace (match m with
           | Checked => if invalid_parameters L R
                        then Err InvalidParameterError else Ok tt
           | Unchecked => Ok tt
           end) with (@Ok unit tt) by (destruct m; now rewrite ?Hvalid).
  cbn [bind].
  destruct (buildGrid_members points L R HL HR) as [g [-> [Hside Hocc]]].
  cbn [bind]. rewrite <- Hside in *.
  assert (HC : (1 <= side g)%Z) by (rewrite Hside; apply cell_count_positive).
  unfold pairs_cell_list.
  rewrite <- !fold_left_filter, <- fold_left_flat_map.
  apply foldM_pure. intros rel rc Hrc.
  rewrite (cell_occupants_members m g points L rc Hocc)
    by (apply in_grid_true, in_all_cells, Hrc).
  cbn [bind]. rewrite <- fold_left_flat_map.
  apply foldM_pure. intros rel1 b Hb.
  rewrite (cell_occupants_members m g points L b Hocc)
    by (apply in_grid_true; apply (block_in_range _ rc); assumption).
  cbn [bind]. rewrite <- fold_left_flat_map.
  apply foldM_pure. intros rel2 i _.
  rewrite <- fold_left_map.
  apply foldM_pure. intros rel3 j _.
  cbn [fst snd]. destruct (i <? j)%nat; [|reflexivity].
  apply visit_accepts, HL.
Qed.

(** ** Every pair is evaluated once *)

Lemma NoDup_flat_map {A B : Type} (f : A -> list B) (l : list A) :
  NoDup l ->
  (forall x, In x l -> NoDup (f x)) ->
  (forall x y z, In x l -> In y l -> In z (f x) -> In z (f y) -> x = y) ->
  NoDup (flat_map f l).
Proof.
  induction 1 as [|x l Hx Hl IH]; intros Hf Hdisj; cbn [flat_map].
  - constructor.
  - apply NoDup_app.
    + apply Hf. left. reflexivity.
    + apply IH.
      * intros y Hy. apply Hf. right. exact Hy.
      * intros y y' z Hy Hy'. apply Hdisj; right; assumption.
    + intros z Hz Hz'. apply in_flat_map in Hz'.
      destruct Hz' as [y [Hy Hzy]].
      assert (x = y)
        by (apply (Hdisj x y z); [left; reflexivity|right; exact Hy| |];
            assumption).
      subst y. contradiction.
Qed.

Lemma NoDup_map_pair (i : nat) (l : list nat) :
  NoDup l -> NoDup (map (pair i) l).
Proof.
  intros H. apply NoDup_map_NoDup_ForallPairs; [|exact H].
  intros x y _ _ E. now injection E.
Qed.

Lemma in_pairs_direct (N : nat) (ij : nat * nat) :
  In ij (pairs_direct N) <-> (fst ij < snd ij < N)%nat.
Proof.
  unfold pairs_direct. rewrite in_flat_map. split.
  - intros [i [Hi Hj]]. apply in_map_iff in Hj. destruct Hj as [j [<- Hj]].
    apply in_seq in Hi, Hj. cbn [fst snd]. lia.
  - intros H. destruct ij as [i j]. cbn [fst snd] in H. exists i.
    split; [apply in_seq; lia|]. apply in_map_iff. exists j.
    split; [reflexivity|]. apply in_seq. lia.
Qed.

Lemma NoDup_pairs_direct (N : nat) : NoDup (pairs_direct N).
Proof.
  unfold pairs_direct. apply NoDup_flat_map.
  - apply seq_NoDup.
  - intros i _. apply NoDup_map_pair, seq_NoDup.
  - intros i i' z _ _ Hz Hz'. apply in_map_iff in Hz, Hz'.
    destruct Hz as [j [<- _]], Hz' as [j' [E _]]. now injection E.
Qed.

Lemma in_members (points : list point) (L : Q) (C : Z) (rc : Z * Z)
  (i : nat) :
  In i (members points L C rc) <->
  (i < length points)%nat /\ cell_of L C (position points i) = rc.
Proof.
  unfold members, in_cell. rewrite filter_In, in_seq.
  destruct (cell_eq_dec (cell_of L C (position points i)) rc) as [E|E].
  - split; intros [H _]; split; auto; lia.
  - split; intros [H H']; [discriminate H'|contradiction].
Qed.

Lemma NoDup_members (points : list point) (L : Q) (C : Z) (rc : Z * Z) :
  NoDup (members points L C rc).
Proof. apply NoDup_filter, seq_NoDup. Qed.

Lemma NoDup_range (C : Z) : NoDup (range C).
Proof.
  unfold range. apply NoDup_map_NoDup_ForallPairs; [|apply seq_NoDup].
  intros x y _ _ E. lia.
Qed.

Lemma NoDup_all_cells (C : Z) : NoDup (all_cells C).
Proof.
  unfold all_cells. apply NoDup_flat_map.
  - apply NoDup_range.
  - intros r _. apply NoDup_map_NoDup_ForallPairs; [|apply NoDup_range].
    intros x y _ _ E. now injection E.
  - intros r r' z _ _ Hz Hz'. apply in_map_iff in Hz, Hz'.
    destruct Hz as [c [<- _]], Hz' as [c' [E _]]. now injection E.
Qed.

Lemma in_pairs_cell_list (points : list point) (L : Q) (C : Z)
  (ij : nat * nat) :
  (1 <= C)%Z ->
  In ij (pairs_cell_list points L C) <->
  (fst ij < snd ij < length points)%nat /\
  In (cell_of L C (position points (snd ij)))
     (block C (cell_of L C (position points (fst ij)))).
Proof.
  intros HC. unfold pairs_cell_list. rewrite filter_In, in_flat_map. split.
  - intros [[rc [Hrc Hin]] Hlt]. apply Nat.ltb_lt in Hlt.
    apply in_flat_map in Hin. destruct Hin as [b [Hb Hin]].
    apply in_flat_map in Hin. destruct Hin as [i [Hi Hin]].
    apply in_map_iff in Hin. destruct Hin as [j [<- Hj]].
    apply in_members in Hi, Hj. destruct Hi as [Hi <-], Hj as [Hj <-].
    cbn [fst snd] in *. split; [lia|exact Hb].
  - intros [Hlt Hb]. destruct ij as [i j]. cbn [fst snd] in *.
    split; [|apply Nat.ltb_lt; lia].
    exists (cell_of L C (position points i)). split.
    + apply in_all_cells. unfold cell_of. cbn [fst snd].
      split; apply cell_index_range; exact HC.
    + apply in_flat_map. exists (cell_of L C (position points j)).
      split; [exact Hb|]. apply in_flat_map. exists i.
      split; [apply in_members; split; [lia|reflexivity]|].
      apply in_map_iff. exists j. split; [reflexivity|].
      apply in_members. split; [lia|reflexivity].
Qed.

Lemma NoDup_pairs_cell_list (points : list point) (L : Q) (C : Z) :
  NoDup (pairs_cell_list points L C).
Proof.
  unfold pairs_cell_list. apply NoDup_filter. apply NoDup_flat_map.
  - apply NoDup_all_cells.
  - intros rc _. apply NoDup_flat_map.
    + apply NoDup_nodup.
    + intros b _. apply NoDup_flat_map.
      * apply NoDup_members.
      * intros i _. apply NoDup_map_pair, NoDup_members.
      * intros i i' z _ _ Hz Hz'. apply in_map_iff in Hz, Hz'.
        destruct Hz as [j [<- _]], Hz' as [j' [E _]]. now injection E.
    + intros b b' z _ _ Hz Hz'. apply in_flat_map in Hz, Hz'.
      destruct Hz as [i [_ Hz]], Hz' as [i' [_ Hz']].
      apply in_map_iff in Hz, Hz'.
      destruct Hz as [j [<- Hj]], Hz' as [j' [E Hj']].
      injection E as _ E. subst j'.
      apply in_members in Hj, Hj'. destruct Hj as [_ <-], Hj' as [_ <-].
      reflexivity.
  - intros rc rc' z _ _ Hz Hz'. apply in_flat_map in Hz, Hz'.
    destruct Hz as [b [_ Hz]], Hz' as [b' [_ Hz']].
    apply in_flat_map in Hz, Hz'.
    destruct Hz as [i [Hi Hz]], Hz' as [i' [Hi' Hz']].
    apply in_map_iff in Hz, Hz'.
    destruct Hz as [j [<- _]], Hz' as [j' [E _]].
    injection E as E _. subst i'.
    apply in_members in Hi, Hi'. destruct Hi as [_ <-], Hi' as [_ <-].
    reflexivity.
Qed.

(** ** Nearby particles lie in adjacent cells *)

Lemma floor_scaled (u s : Q) :
  0 < s ->
  inject_Z (Qfloor (u / s)) * s <= u /\
  u < (inject_Z (Qfloor (u / s)) + 1) * s.
Proof.
  intros Hs.
  pose proof (Qfloor_le (u / s)) as Hlo.
  pose proof (Qlt_floor (u / s)) as Hhi.
  rewrite inject_Z_plus in Hhi.
  assert (Hq : u / s * s == u) by (field; lra).
  set (q := u / s) in *. set (a := inject_Z (Qfloor q)) in *.
  change (inject_Z 1) with 1 in Hhi.
  split; nra.
Qed.

Lemma wrap_range (L x : Q) : 0 < L -> 0 <= wrap L x /\ wrap L x < L.
Proof.
  intros HL. unfold wrap. destruct (floor_scaled x L HL) as [Hlo Hhi].
  split; lra.
Qed.

Lemma minimum_image_shift (L d : Q) :
  exists k : Z, (-1 <= k <= 1)%Z /\
                minimum_image L d == d + inject_Z k * L.
Proof.
  unfold minimum_image.
  destruct (Qltb (L / 2) d); [|destruct (Qltb d (- (L / 2)))].
  - exists (-1)%Z. split; [lia|]. change (inject_Z (-1)) with (-1). ring.
  - exists 1%Z. split; [lia|]. change (inject_Z 1) with 1. ring.
  - exists 0%Z. split; [lia|]. change (inject_Z 0) with 0. ring.
Qed.

Lemma scaled_lt (s : Q) (a b : Z) :
  0 < s -> inject_Z a * s < inject_Z b * s -> (a < b)%Z.
Proof.
  intros Hs H. rewrite Zlt_Qlt. nra.
Qed.

Lemma adjacent_offset (C a1 a2 : Z) :
  (0 <= a1 < C)%Z -> (0 <= a2 < C)%Z ->
  (a2 - a1 = -1 \/ a2 - a1 = 0 \/ a2 - a1 = 1 \/
   (a1 = 0 /\ a2 = C - 1) \/ (a1 = C - 1 /\ a2 = 0))%Z ->
  exists d, In d offsets /\ a2 = ((a1 + d) mod C)%Z.
Proof.
  intros H1 H2 [H|[H|[H|[[Ha Hb]|[Ha Hb]]]]].
  - exists (-1)%Z. split; [cbn; auto|].
    replace (a1 + -1)%Z with a2 by lia. symmetry. apply Z.mod_small, H2.
  - exists 0%Z. split; [cbn; auto|].
    replace (a1 + 0)%Z with a2 by lia. symmetry. apply Z.mod_small, H2.
  - exists 1%Z. split; [cbn; auto|].
    replace (a1 + 1)%Z with a2 by lia. symmetry. apply Z.mod_small, H2.
  - exists (-1)%Z. split; [cbn; auto|]. subst a1 a2.
    apply (Z.mod_unique (0 + -1) C (-1) (C - 1)); lia.
  - exists 1%Z. split; [cbn; auto|]. subst a1 a2.
    replace (C - 1 + 1)%Z with C by lia. symmetry. apply Z.mod_same. lia.
Qed.

(** Two wrapped coordinates whose periodic separation is at most [R], in a
    grid of at least two cells of side [s >= R], lie in cells whose indices
    differ by at most one modulo [C]. *)
Lemma axis_adjacent_core (L R s u1 u2 m : Q) (C a1 a2 t : Z) :
  0 < R -> R <= s -> L == s * inject_Z C -> (2 <= C)%Z ->
  0 <= u1 -> u1 < L -> 0 <= u2 -> u2 < L ->
  inject_Z a1 * s <= u1 -> u1 < (inject_Z a1 + 1) * s ->
  inject_Z a2 * s <= u2 -> u2 < (inject_Z a2 + 1) * s ->
  u2 - u1 == m + inject_Z t * L ->
  - R <= m -> m <= R ->
  (0 <= a1 < C)%Z /\ (0 <= a2 < C)%Z /\
  exists d, In d offsets /\ a2 = ((a1 + d) mod C)%Z.
Proof.
  intros HR HRs HL HC Hu1 Hu1L Hu2 Hu2L Ha1 Ha1' Ha2 Ha2' Ht Hm Hm'.
  assert (Hs : 0 < s) by lra.
  rewrite Zle_Qle in HC. change (inject_Z 2) with 2 in HC.
  assert (HsL : 2 * s <= L) by nra.
  assert (Hr1 : (0 <= a1 < C)%Z).
  { split.
    - assert (-1 < a1)%Z; [|lia]. apply (scaled_lt s); [exact Hs|].
      change (inject_Z (-1)) with (-1). lra.
    - apply (scaled_lt s); [exact Hs|]. lra. }
  assert (Hr2 : (0 <= a2 < C)%Z).
  { split.
    - assert (-1 < a2)%Z; [|lia]. apply (scaled_lt s); [exact Hs|].
      change (inject_Z (-1)) with (-1). lra.
    - apply (scaled_lt s); [exact Hs|]. lra. }
  split; [exact Hr1|]. split; [exact Hr2|].
  apply adjacent_offset; try assumption.
  assert (Ht2 : (t < 2)%Z).
  { apply (scaled_lt L); [lra|]. change (inject_Z 2) with 2. lra. }
  assert (Ht2' : (-2 < t)%Z).
  { apply (scaled_lt L); [lra|]. change (inject_Z (-2)) with (-2). lra. }
  assert (Hcases : (t = -1 \/ t = 0 \/ t = 1)%Z) by lia.
  destruct Hcases as [-> | [-> | ->]].
  - (* the second coordinate wrapped below the first *)
    change (inject_Z (-1)) with (-1) in Ht.
    right; right; right; right. split.
    + assert (C < a1 + 2)%Z; [|lia]. apply (scaled_lt s); [exact Hs|].
      rewrite inject_Z_plus. change (inject_Z 2) with 2. lra.
    + assert (a2 < 1)%Z; [|lia]. apply (scaled_lt s); [exact Hs|].
      change (inject_Z 1) with 1. lra.
  - change (inject_Z 0) with 0 in Ht.
    assert (a2 < a1 + 2)%Z.
    { apply (scaled_lt s); [exact Hs|].
      rewrite inject_Z_plus. change (inject_Z 2) with 2. lra. }
    assert (a1 < a2 + 2)%Z.
    { apply (scaled_lt s); [exact Hs|].
      rewrite inject_Z_plus. change (inject_Z 2) with 2. lra. }
    lia.
  - (* the second coordinate wrapped above the first *)
    change (inject_Z 1) with 1 in Ht.
    right; right; right; left. split.
    + assert (a1 < 1)%Z; [|lia]. apply (scaled_lt s); [exact Hs|].
      change (inject_Z 1) with 1. lra.
    + assert (C < a2 + 2)%Z; [|lia]. apply (scaled_lt s); [exact Hs|].
      rewrite inject_Z_plus. change (inject_Z 2) with 2. lra.
Qed.

Lemma clamp_inside (C a : Z) : (0 <= a < C)%Z -> clamp 0 (C - 1) a = a.
Proof. intros H. unfold clamp. lia. Qed.

Lemma axis_adjacent (L R x1 x2 : Q) :
  0 < L -> 0 < R ->
  minimum_image L (x2 - x1) * minimum_image L (x2 - x1) <= R * R ->
  exists d, In d offsets /\
    cell_index L (cell_count L R) x2
    = ((cell_index L (cell_count L R) x1 + d) mod cell_count L R)%Z.
Proof.
  intros HL HR Hclose.
  destruct (Z_lt_le_dec (cell_count L R) 2) as [Hsmall|Hbig].
  - (* a single cell *)
    pose proof (cell_count_positive L R) as HC.
    assert (E : cell_count L R = 1%Z) by lia. rewrite E.
    exists 0%Z. split; [cbn; auto|].
    unfold cell_index, clamp. rewrite Z.mod_1_r. lia.
  - assert (EC : cell_count L R = Qfloor (L / R))
      by (unfold cell_count in *; lia).
    destruct (floor_scaled L R HR) as [HCR _]. rewrite <- EC in HCR.
    set (C := cell_count L R) in *.
    assert (HCq : 2 <= inject_Z C)
      by (rewrite Zle_Qle in Hbig; exact Hbig).
    set (s := L / inject_Z C).
    assert (HLs : L == s * inject_Z C) by (unfold s; field; lra).
    assert (HRs : R <= s) by nra.
    assert (Hs : 0 < s) by lra.
    destruct (wrap_range L x1 HL) as [Hu1 Hu1'].
    destruct (wrap_range L x2 HL) as [Hu2 Hu2'].
    destruct (floor_scaled (wrap L x1) s Hs) as [Ha1 Ha1'].
    destruct (floor_scaled (wrap L x2) s Hs) as [Ha2 Ha2'].
    destruct (minimum_image_shift L (x2 - x1)) as [k [_ Hk]].
    set (m := minimum_image L (x2 - x1)) in *.
    assert (Hm : - R <= m /\ m <= R) by (split; nra).
    destruct Hm as [Hm Hm'].
    assert (Ht : wrap L x2 - wrap L x1
                 == m + inject_Z (Qfloor (x1 / L) + - Qfloor (x2 / L) + - k)
                        * L).
    { rewrite Hk. unfold wrap.
      rewrite !inject_Z_plus, !inject_Z_opp. ring. }
    destruct (axis_adjacent_core L R s (wrap L x1) (wrap L x2) m C
                (Qfloor (wrap L x1 / s)) (Qfloor (wrap L x2 / s)) _
                HR HRs HLs Hbig Hu1 Hu1' Hu2 Hu2' Ha1 Ha1' Ha2 Ha2' Ht Hm Hm')
      as [Hr1 [Hr2 Hadj]].
    unfold cell_index. fold s. rewrite !clamp_inside by assumption.
    exact Hadj.
Qed.

Lemma accepted_in_block (points : list point) (L R : Q) (ij : nat * nat) :
  0 < L -> 0 < R ->
  accepts points L R ij = true ->
  In (cell_of L (cell_count L R) (position points (snd ij)))
     (block (cell_count L R)
        (cell_of L (cell_count L R) (position points (fst ij)))).
Proof.
  intros HL HR Hacc. unfold accepts, squared_distance in Hacc.
  apply Qle_bool_iff in Hacc. cbv zeta in Hacc.
  set (p := position points (fst ij)) in *.
  set (q := position points (snd ij)) in *.
  set (dx := minimum_image L (fst q - fst p)) in *.
  set (dy := minimum_image L (snd q - snd p)) in *.
  assert (Hx : dx * dx <= R * R) by nra.
  assert (Hy : dy * dy <= R * R) by nra.
  destruct (axis_adjacent L R (fst p) (fst q) HL HR Hx) as [dr [Hdr Er]].
  destruct (axis_adjacent L R (snd p) (snd q) HL HR Hy) as [dc [Hdc Ec]].
  apply in_block. exists dr, dc. split; [exact Hdr|]. split; [exact Hdc|].
  unfold cell_of. cbn [fst snd]. now rewrite Er, Ec.
Qed.

(** ** C1: the three strategies agree *)

Lemma accepted_pairs_Permutation (points : list point) (L R : Q) :
  0 < L -> 0 < R ->
  Permutation
    (filter (accepts points L R) (pairs_direct (length points)))
    (filter (accepts points L R)
       (pairs_cell_list points L (cell_count L R))).
Proof.
  intros HL HR. apply NoDup_Permutation.
  - apply NoDup_filter, NoDup_pairs_direct.
  - apply NoDup_filter, NoDup_pairs_cell_list.
  - intros ij. rewrite !filter_In, in_pairs_direct.
    rewrite in_pairs_cell_list by apply cell_count_positive.
    split.
    + intros [Hlt Hacc]. split; [split; [exact Hlt|]|exact Hacc].
      apply accepted_in_block; assumption.
    + intros [[Hlt _] Hacc]. split; assumption.
Qed.

Lemma nth_sorted_entries (rel : NeighborRelation) (k : nat) :
  nth k (sorted_entries rel) [] = sorted (nth k rel []).
Proof. unfold sorted_entries. apply (map_nth sorted rel [] k). Qed.

Lemma sorted_entries_recorded (N : nat) (p q : list (nat * nat)) :
  Permutation p q ->
  sorted_entries (fold_left record_pair p (repeat [] N))
  = sorted_entries (fold_left record_pair q (repeat [] N)).
Proof.
  intros Hpq.
  apply (nth_ext _ _ [] []).
  - unfold sorted_entries. now rewrite !length_map, !length_record_pairs.
  - intros k Hk. unfold sorted_entries in Hk.
    rewrite length_map, length_record_pairs, repeat_length in Hk.
    rewrite !nth_sorted_entries, !nth_recorded by exact Hk.
    apply sorted_Permutation, partners_Permutation, Hpq.
Qed.

(** C1.  For every point set, every domain side [L > 0] and every
    interaction radius [R > 0], the direct strategy, the checked cell list
    and the unchecked cell list all return a neighbour relation with one
    entry per particle, and once every entry is sorted the three relations
    are equal, entry by entry. *)
Theorem strategies_consistent (points : list point) (L R : Q) :
  0 < L -> 0 < R ->
  exists d c n : NeighborRelation,
    interacts_direct points L R = Ok d /\
    interacts_cl_checks points L R = Ok c /\
    interacts_cl_nochecks points L R = Ok n /\
    length d = length points /\
    length c = length points /\
    length n = length points /\
    consistent d c n /\
    forall i : nat,
      sorted (nth i d []) = sorted (nth i c []) /\
      sorted (nth i c []) = sorted (nth i n []).
Proof.
  intros HL HR.
  unfold interacts_direct, interacts_cl_checks, interacts_cl_nochecks.
  rewrite findNeighborsDirect_pairs, !findNeighborsCellList_pairs
    by assumption.
  do 3 eexists. do 3 (split; [reflexivity|]).
  rewrite !length_record_pairs, repeat_length.
  do 3 (split; [reflexivity|]).
  pose proof (sorted_entries_recorded (length points) _ _
                (accepted_pairs_Permutation points L R HL HR)) as Hdc.
  split; [split; [exact Hdc|reflexivity]|].
  intros i. split; [|reflexivity].
  apply (f_equal (fun rel => nth i rel [])) in Hdc.
  now rewrite !nth_sorted_entries in Hdc.
Qed.

Lemma strategies_consistent_witness :
  exists d c n : NeighborRelation,
    interacts_direct [(0, 0); (1 # 2, 0); (97 # 10, 0)] 10 1 = Ok d /\
    interacts_cl_checks [(0, 0); (1 # 2, 0); (97 # 10, 0)] 10 1 = Ok c /\
    interacts_cl_nochecks [(0, 0); (1 # 2, 0); (97 # 10, 0)] 10 1 = Ok n /\
    consistent d c n.
Proof.
  destruct (strategies_consistent [(0, 0); (1 # 2, 0); (97 # 10, 0)] 10 1)
    as [d [c [n [Hd [Hc [Hn [_ [_ [_ [H _]]]]]]]]]].
  - reflexivity.
  - reflexivity.
  - exists d, c, n. repeat split; try assumption; apply H.
Defined.

End NumericsFacts.

(* ================================================================= *)
(** * Part III: further properties of [vector.py] *)

Section UnitVectorFacts.
Import Vector.
Local Open Scope R_scope.

Lemma row_vector_unit_nonull (v : ndarray) (i : nat) :
  size v <> 0%nat -> (i < length (rows v))%nat ->
  row (vector_unit_nonull v) i = row_div (row v i) (row_mag (row v i)).
Proof.
  intros Hsize Hi. unfold vector_unit_nonull.
  destruct (Nat.eqb_spec (size v) 0) as [E|_]; [contradiction|].
  unfold row at 1. cbn [rows].
  rewrite (nth_zip_with _ _ _ i [] 0 [])
    by (rewrite ?length_vector_mag; exact Hi).
  fold (row v i). now rewrite nth_vector_mag by exact Hi.
Qed.

(** X1.  On a non-empty batch, [vector_unit_nonull] keeps the shape and
    maps every vector of nonzero magnitude to that vector divided by its
    magnitude, a vector of magnitude 1. *)
Theorem vector_unit_nonull_unit (v : ndarray) (i : nat) :
  size v <> 0%nat -> (i < length (rows v))%nat ->
  row_mag (row v i) <> 0 ->
  shape_last (vector_unit_nonull v) = shape_last v /\
  length (rows (vector_unit_nonull v)) = length (rows v) /\
  row (vector_unit_nonull v) i
    = map (fun x => x / row_mag (row v i)) (row v i) /\
  row_mag (row (vector_unit_nonull v) i) = 1.
Proof.
  intros Hsize Hi Hm.
  rewrite (row_vector_unit_nonull v i Hsize Hi).
  unfold vector_unit_nonull.
  destruct (Nat.eqb_spec (size v) 0) as [E|_]; [contradiction|].
  cbn [shape_last rows]. split; [reflexivity|].
  split; [apply length_zip_with; symmetry; apply length_vector_mag|].
  split; [reflexivity|]. apply row_mag_unit, Hm.
Qed.

Lemma vector_unit_nonull_unit_witness :
  let v := mk_ndarray 2 [[3; 4]] in
  row (vector_unit_nonull v) 0
    = map (fun x => x / row_mag (row v 0)) (row v 0) /\
  row_mag (row (vector_unit_nonull v) 0) = 1.
Proof.
  intro v.
  destruct (vector_unit_nonull_unit v 0) as [_ [_ H]].
  - unfold size. simpl. lia.
  - simpl. lia.
  - apply nonzero_row_mag. apply Exists_cons_hd. lra.
  - exact H.
Defined.

Lemma row_div_one (r : list R) : row_div r 1 = r.
Proof.
  unfold row_div. rewrite <- (map_id r) at 2. apply map_ext.
  intros x. field.
Qed.

Lemma divide_where_positive_idempotent (rs : list (list R)) :
  divide_where_positive (divide_where_positive rs (map row_mag rs))
    (map row_mag (divide_where_positive rs (map row_mag rs)))
  = divide_where_positive rs (map row_mag rs).
Proof.
  unfold divide_where_positive.
  induction rs as [|r rs IH]; [reflexivity|].
  cbn [map zip_with]. rewrite IH. f_equal.
  pose proof (row_mag_nonneg r) as Hge.
  destruct (Rlt_dec 0 (row_mag r)) as [Hpos|Hzero].
  - rewrite row_mag_unit by lra.
    destruct (Rlt_dec 0 1) as [_|H]; [apply row_div_one|lra].
  - destruct (Rlt_dec 0 (row_mag r)) as [H|_]; [contradiction|reflexivity].
Qed.

Lemma length_divide_where_positive (rs : list (list R)) :
  length (divide_where_positive rs (map row_mag rs)) = length rs.
Proof.
  unfold divide_where_positive. apply length_zip_with.
  now rewrite length_map.
Qed.

(** X2.  [vector_unit_nullnull] is idempotent: normalising an already
    normalised batch changes nothing. *)
Theorem vector_unit_nullnull_idempotent (v : ndarray) :
  vector_unit_nullnull (vector_unit_nullnull v) = vector_unit_nullnull v.
Proof.
  unfold vector_unit_nullnull at 2.
  destruct (Nat.eqb_spec (size v) 0) as [E|E].
  - unfold vector_unit_nullnull. apply Nat.eqb_eq in E. now rewrite E.
  - rewrite vector_mag_rows. unfold vector_unit_nullnull.
    unfold size at 1. cbn [rows shape_last].
    rewrite length_divide_where_positive. fold (size v).
    apply Nat.eqb_neq in E. rewrite E. cbn [rows shape_last].
    rewrite !vector_mag_rows. cbn [rows].
    now rewrite divide_where_positive_idempotent.
Qed.

Lemma advance_zero (s : RandomState) : advance 0 s = s.
Proof. destruct s as [t p]. unfold advance. cbn [tape pos]. f_equal. lia. Qed.

Lemma sphere_pick_none (d : Z) (s : RandomState) :
  valid_dim d -> sphere_pick d 0 s = (Ok (mk_ndarray (Z.to_nat d) []), s).
Proof.
  intros [-> | [-> | ->]]; unfold sphere_pick, bind.
  - rewrite sphere_pick_polar_1 by lia. cbn. now rewrite advance_zero.
  - rewrite sphere_pick_polar_2 by lia. cbn. now rewrite advance_zero.
  - rewrite sphere_pick_polar_3 by lia. cbn. now rewrite advance_zero.
Qed.

Lemma sphere_pick_invalid (d n : Z) (s : RandomState) :
  (0 <= n)%Z -> (0 <= d)%Z -> ~ valid_dim d ->
  sphere_pick d n s = (Raise invalid_polar, s).
Proof.
  intros Hn Hd Hinv. unfold sphere_pick, sphere_pick_polar, bind, lift.
  rewrite np_shape_ok by assumption. unfold valid_dim in Hinv.
  destruct (Z.eqb_spec d 1); [tauto|].
  destruct (Z.eqb_spec d 2); [tauto|].
  destruct (Z.eqb_spec d 3); [tauto|]. reflexivity.
Qed.

Lemma assign_where_zero_nil (rs : list (list R)) (mag : list R) :
  assign_where_zero rs mag [] = rs.
Proof.
  revert mag. induction rs as [|r rs IH]; intros [|m mag]; cbn; auto.
  destruct (Req_dec_T m 0); now rewrite IH.
Qed.

Lemma count_zero_none (rs : list (list R)) :
  Forall (fun r => row_mag r <> 0) rs -> count_zero (map row_mag rs) = 0%nat.
Proof.
  unfold count_zero. induction 1 as [|r rs Hr _ IH]; [reflexivity|].
  cbn [map filter]. destruct (Req_dec_T (row_mag r) 0); [contradiction|].
  exact IH.
Qed.

Lemma length_assigned (rs picks : list (list R)) :
  length (divide_where_positive
            (assign_where_zero rs (map row_mag rs) picks) (map row_mag rs))
  = length rs.
Proof.
  unfold divide_where_positive. revert picks.
  induction rs as [|r rs IH]; intros picks; [reflexivity|].
  cbn [map assign_where_zero].
  destruct (Req_dec_T (row_mag r) 0); [destruct picks|];
    cbn [zip_with length]; now rewrite IH.
Qed.

Lemma nth_assigned_nonzero (rs picks : list (list R)) (i : nat) :
  (i < length rs)%nat -> row_mag (nth i rs []) <> 0 ->
  nth i (divide_where_positive
           (assign_where_zero rs (map row_mag rs) picks) (map row_mag rs)) []
  = row_div (nth i rs []) (row_mag (nth i rs [])).
Proof.
  unfold divide_where_positive. revert picks i.
  induction rs as [|r rs IH]; intros picks i Hi Hm; cbn in Hi; [lia|].
  cbn [map assign_where_zero].
  destruct i as [|i].
  - cbn [nth] in Hm. pose proof (row_mag_nonneg r).
    destruct (Req_dec_T (row_mag r) 0); [contradiction|].
    cbn [zip_with nth].
    destruct (Rlt_dec 0 (row_mag r)); [reflexivity|lra].
  - cbn [nth] in Hm.
    destruct (Req_dec_T (row_mag r) 0); [destruct picks|];
      cbn [zip_with nth]; apply IH; try lia; exact Hm.
Qed.

(** X3.  On a non-empty batch of vectors of dimension 1, 2 or 3,
    [vector_unit_nullrand] returns an array of the same shape in which
    every vector has magnitude 1, and every vector of nonzero magnitude is
    the input vector divided by its magnitude, whatever the random
    draws. *)
Theorem vector_unit_nullrand_all_unit (v : ndarray) (s : RandomState) :
  size v <> 0%nat -> valid_dim (Z.of_nat (shape_last v)) -> valid_tape s ->
  exists w s',
    vector_unit_nullrand v s = (Ok w, s') /\
    shape_last w = shape_last v /\
    length (rows w) = length (rows v) /\
    Forall (fun r => row_mag r = 1) (rows w) /\
    forall i, (i < length (rows v))%nat -> row_mag (row v i) <> 0 ->
      row w i = map (fun x => x / row_mag (row v i)) (row v i).
Proof.
  intros Hsize Hd Hv. unfold vector_unit_nullrand.
  destruct (Nat.eqb_spec (size v) 0) as [E|_]; [contradiction|].
  unfold bind at 1.
  destruct (sphere_pick_polar_and_cart (Z.of_nat (shape_last v))
              (Z.of_nat (count_zero (vector_mag v))) s Hd
              (Nat2Z.is_nonneg _) Hv)
    as [p [c [s' [_ [-> [_ [Hlen [Hunit _]]]]]]]].
  unfold ret. do 2 eexists. split; [reflexivity|]. cbn [rows shape_last].
  rewrite vector_mag_rows in *.
  split; [reflexivity|]. split; [apply length_assigned|].
  split.
  - apply unit_after_assignment; [exact Hunit|].
    rewrite Hlen. apply Nat2Z.id.
  - intros i Hi Hm. unfold row at 1. cbn [rows].
    apply nth_assigned_nonzero; assumption.
Qed.

Lemma vector_unit_nullrand_all_unit_witness :
  exists w s',
    vector_unit_nullrand (mk_ndarray 2 [[3; 4]; [0; 0]])
      (constant_state (1 / 2)) = (Ok w, s') /\
    Forall (fun r => row_mag r = 1) (rows w).
Proof.
  destruct (vector_unit_nullrand_all_unit (mk_ndarray 2 [[3; 4]; [0; 0]])
              (constant_state (1 / 2)))
    as [w [s' [H1 [_ [_ [H2 _]]]]]].
  - unfold size. simpl. lia.
  - unfold valid_dim. cbn [shape_last]. lia.
  - intros i. cbn [constant_state tape]. lra.
  - exists w, s'. split; assumption.
Defined.

(** X4.  On a non-empty batch of dimension 1, 2 or 3 without null vectors,
    [vector_unit_nullrand] draws nothing: it returns what
    [vector_unit_nullnull] returns and leaves the random state as it
    was. *)
Theorem vector_unit_nullrand_without_null (v : ndarray) (s : RandomState) :
  size v <> 0%nat -> valid_dim (Z.of_nat (shape_last v)) ->
  Forall (fun r => row_mag r <> 0) (rows v) ->
  vector_unit_nullrand v s = (Ok (vector_unit_nullnull v), s).
Proof.
  intros Hsize Hd Hnz. unfold vector_unit_nullrand, vector_unit_nullnull.
  destruct (Nat.eqb_spec (size v) 0) as [E|_]; [contradiction|].
  rewrite vector_mag_rows, count_zero_none by exact Hnz.
  unfold bind. change (Z.of_nat 0) with 0%Z.
  rewrite sphere_pick_none by exact Hd. unfold ret. cbn [rows].
  now rewrite assign_where_zero_nil.
Qed.

Lemma vector_unit_nullrand_without_null_witness :
  vector_unit_nullrand (mk_ndarray 2 [[3; 4]]) (constant_state 0)
  = (Ok (vector_unit_nullnull (mk_ndarray 2 [[3; 4]])), constant_state 0).
Proof.
  apply vector_unit_nullrand_without_null.
  - unfold size. simpl. lia.
  - unfold valid_dim. cbn [shape_last]. lia.
  - constructor; [|constructor].
    apply nonzero_row_mag. apply Exists_cons_hd. lra.
Defined.

(** X5.  On a non-empty batch of vectors whose dimension is not 1, 2 or 3,
    [vector_unit_nullrand] raises 'Invalid vector for polar
    representation' and leaves the random state as it was, even when no
    vector of the batch is null. *)
Theorem vector_unit_nullrand_invalid_dim (v : ndarray) (s : RandomState) :
  size v <> 0%nat -> ~ valid_dim (Z.of_nat (shape_last v)) ->
  vector_unit_nullrand v s = (Raise invalid_polar, s).
Proof.
  intros Hsize Hd. unfold vector_unit_nullrand.
  destruct (Nat.eqb_spec (size v) 0) as [E|_]; [contradiction|].
  unfold bind. now rewrite sphere_pick_invalid by (try lia; exact Hd).
Qed.

Lemma vector_unit_nullrand_invalid_dim_witness :
  vector_unit_nullrand (mk_ndarray 4 [[1; 2; 3; 4]]) (constant_state 0)
  = (Raise invalid_polar, constant_state 0).
Proof.
  apply vector_unit_nullrand_invalid_dim.
  - unfold size. simpl. lia.
  - unfold valid_dim. cbn [shape_last]. lia.
Defined.

Lemma row_mag_sq_zeros (r : list R) :
  Forall (fun x => x = 0) r -> row_mag_sq r = 0.
Proof.
  unfold row_mag_sq, square.
  induction 1 as [|x r Hx _ IH]; cbn [map sum fold_right]; [reflexivity|].
  unfold sum in IH. rewrite IH, Hx. ring.
Qed.

Lemma row_mag_nonzero (r : list R) : row_mag r <> 0 -> nonzero r.
Proof.
  unfold nonzero. induction r as [|x r IH]; intros Hm.
  - exfalso. apply Hm. unfold row_mag, row_mag_sq. cbn. apply sqrt_0.
  - destruct (Req_dec_T x 0) as [Hx|Hx]; [|now apply Exists_cons_hd].
    apply Exists_cons_tl, IH. intros Hr. apply Hm.
    apply row_mag_zero in Hr. unfold row_mag.
    replace (row_mag_sq (x :: r)) with 0; [apply sqrt_0|].
    symmetry. apply row_mag_sq_zeros. constructor; [exact Hx|].
    rewrite Hr. apply Forall_forall. intros y Hy.
    now apply repeat_spec in Hy.
Qed.

(** X22.  Entry [i] of [vector_mag v] is [0] exactly when every component
    of [v[i]] is [0], and positive exactly when [v[i]] has a nonzero
    component: the tests [mag == 0.0] and [mag > 0.0] of the unit-vector
    functions split the batch into its null and its non-null vectors. *)
Theorem vector_mag_zero_iff (v : ndarray) (i : nat) :
  (i < length (rows v))%nat ->
  (nth i (vector_mag v) 0 = 0 <-> Forall (fun x => x = 0) (row v i)) /\
  (0 < nth i (vector_mag v) 0 <-> nonzero (row v i)).
Proof.
  intros Hi. rewrite nth_vector_mag by exact Hi.
  pose proof (row_mag_nonneg (row v i)) as Hge. split; split.
  - intros Hm. apply row_mag_zero in Hm. rewrite Hm.
    apply Forall_forall. intros y Hy. now apply repeat_spec in Hy.
  - intros Hz. unfold row_mag. rewrite row_mag_sq_zeros by exact Hz.
    apply sqrt_0.
  - intros Hm. apply row_mag_nonzero. lra.
  - intros Hnz. apply nonzero_row_mag in Hnz. lra.
Qed.

Lemma vector_mag_zero_iff_witness :
  nth 1 (vector_mag (mk_ndarray 2 [[3; 4]; [0; 0]])) 0 = 0
  <-> Forall (fun x => x = 0) (row (mk_ndarray 2 [[3; 4]; [0; 0]]) 1).
Proof.
  apply (vector_mag_zero_iff (mk_ndarray 2 [[3; 4]; [0; 0]]) 1).
  simpl. lia.
Defined.

End UnitVectorFacts.

Section AngleFacts.
Import Vector.
Local Open Scope R_scope.

Lemma dot_comm (a b : list R) : dot a b = dot b a.
Proof.
  unfold dot. revert b. induction a as [|x a IH]; intros [|y b];
    cbn [zip_with sum fold_right]; try reflexivity.
  unfold sum in IH. rewrite IH. ring.
Qed.




(** X7.  With exact division the fallback of [vector_angle] is never
    taken: for nonzero [a[i]] and [b[i]] the cosine lies in [[-1, 1]],
    entry [i] is its arccosine, and [|a| |b| cos(theta) = a . b]. *)
Theorem vector_angle_is_arccos (a b : ndarray) (i : nat) :
  length (rows a) = length (rows b) -> (i < length (rows a))%nat ->
  nonzero (row a i) -> nonzero (row b i) ->
  let den := row_mag (row a i) * row_mag (row b i) in
  let cos_theta := dot (row a i) (row b i) / den in
  -1 <= cos_theta <= 1 /\
  nth i (vector_angle a b) None = Some (acos cos_theta) /\
  den * cos (acos cos_theta) = dot (row a i) (row b i).
Proof.
  intros Hlen Hi Ha Hb den cos_theta.
  assert (Hexact := vector_angle_exact a b i Hlen Hi Ha Hb).
  apply nonzero_row_mag in Ha, Hb.
  pose proof (row_mag_nonneg (row a i)) as H1.
  pose proof (row_mag_nonneg (row b i)) as H2.
  assert (Hden : 0 < den) by (unfold den; nra).
  assert (Hrange : -1 <= cos_theta <= 1).
  { pose proof (dot_sqr_le (row a i) (row b i)) as Hcs.
    rewrite <- !row_mag_sqr in Hcs.
    assert (Hc : cos_theta * den = dot (row a i) (row b i))
      by (unfold cos_theta; field; lra).
    assert (Hsq : cos_theta * cos_theta <= 1).
    { apply (Rmult_le_reg_r (den * den)); [nra|].
      unfold den in *. nra. }
    split; nra. }
  split; [exact Hrange|]. split; [exact Hexact|].
  rewrite cos_acos by exact Hrange. unfold cos_theta. field. lra.
Qed.

Lemma vector_angle_is_arccos_witness :
  nth 0 (vector_angle (mk_ndarray 2 [[1; 0]]) (mk_ndarray 2 [[0; 1]])) None
  = Some (acos (dot [1; 0] [0; 1] / (row_mag [1; 0] * row_mag [0; 1]))).
Proof.
  apply (vector_angle_is_arccos (mk_ndarray 2 [[1; 0]])
           (mk_ndarray 2 [[0; 1]]) 0).
  - reflexivity.
  - simpl. lia.
  - apply Exists_cons_hd. lra.
  - apply Exists_cons_tl, Exists_cons_hd. lra.
Defined.

Lemma dot_scaled (k : R) (a : list R) :
  dot a (map (fun x => k * x) a) = k * row_mag_sq a.
Proof.
  unfold dot, row_mag_sq, square.
  induction a as [|x a IH]; cbn [map zip_with sum fold_right]; [ring|].
  unfold sum in IH. rewrite IH. ring.
Qed.

Lemma row_mag_sq_scaled (k : R) (a : list R) :
  row_mag_sq (map (fun x => k * x) a) = k * k * row_mag_sq a.
Proof.
  unfold row_mag_sq, square.
  induction a as [|x a IH]; cbn [map sum fold_right]; [ring|].
  unfold sum in IH. rewrite IH. ring.
Qed.

Lemma row_mag_scaled (k : R) (a : list R) :
  row_mag (map (fun x => k * x) a) = Rabs k * row_mag a.
Proof.
  unfold row_mag. rewrite row_mag_sq_scaled.
  rewrite sqrt_mult_alt by nra.
  f_equal. replace (k * k) with (Rsqr k) by (unfold Rsqr; ring).
  apply sqrt_Rsqr_abs.
Qed.

Lemma nonzero_scaled (k : R) (a : list R) :
  k <> 0 -> nonzero a -> nonzero (map (fun x => k * x) a).
Proof.
  intros Hk Ha. unfold nonzero in *. rewrite Exists_exists in *.
  destruct Ha as [x [Hin Hx]]. exists (k * x).
  split; [apply in_map_iff; exists x; auto|].
  intros E. apply Rmult_integral in E. tauto.
Qed.

(** X8.  For a nonzero vector [a[i]] and [b[i] = k a[i]], entry [i] of
    [vector_angle a b] is [0] when [k > 0] and [pi] when [k < 0]; in
    particular the angle of a nonzero vector with itself is [0]. *)
Theorem vector_angle_parallel (a b : ndarray) (i : nat) (k : R) :
  length (rows a) = length (rows b) -> (i < length (rows a))%nat ->
  nonzero (row a i) -> row b i = map (fun x => k * x) (row a i) ->
  (0 < k -> nth i (vector_angle a b) None = Some 0) /\
  (k < 0 -> nth i (vector_angle a b) None = Some PI).
Proof.
  intros Hlen Hi Ha Hb.
  assert (Hcos : forall c, k <> 0 -> k / Rabs k = c ->
            nth i (vector_angle a b) None = Some (acos c)).
  { intros c Hk Hc.
    rewrite (vector_angle_exact a b i Hlen Hi Ha)
      by (rewrite Hb; apply nonzero_scaled; assumption).
    rewrite Hb, dot_scaled, row_mag_scaled, <- row_mag_sqr.
    apply nonzero_row_mag in Ha.
    do 2 f_equal. rewrite <- Hc. field.
    split; [apply Rabs_no_R0, Hk|exact Ha]. }
  split; intros Hk.
  - rewrite (Hcos 1) by (rewrite ?Rabs_right by lra; try field; lra).
    now rewrite acos_1.
  - rewrite (Hcos (-1)) by (rewrite ?Rabs_left by lra; try field; lra).
    change (-1) with (- (1)). rewrite acos_opp, acos_1. f_equal. ring.
Qed.

Lemma vector_angle_parallel_witness :
  nth 0 (vector_angle (mk_ndarray 2 [[3; 4]]) (mk_ndarray 2 [[3; 4]])) None
  = Some 0.
Proof.
  destruct (vector_angle_parallel (mk_ndarray 2 [[3; 4]])
              (mk_ndarray 2 [[3; 4]]) 0 1) as [H _].
  - reflexivity.
  - simpl. lia.
  - apply Exists_cons_hd. lra.
  - unfold row. cbn [rows nth map]. repeat f_equal; ring.
  - apply H. lra.
Defined.

Lemma dot_zero_l (n : nat) (b : list R) : dot (repeat 0 n) b = 0.
Proof.
  unfold dot. revert b. induction n as [|n IH]; intros [|y b];
    cbn [repeat zip_with sum fold_right]; try reflexivity.
  unfold sum in IH. rewrite IH. ring.
Qed.

Lemma dot_null (a b : list R) :
  row_mag a = 0 \/ row_mag b = 0 -> dot a b = 0.
Proof.
  intros [H|H]; apply row_mag_zero in H.
  - rewrite H. apply dot_zero_l.
  - rewrite dot_comm, H. apply dot_zero_l.
Qed.

(** X9.  Where [a[i]] or [b[i]] is a null vector, [vector_angle] raises
    nothing and assigns nothing: entry [i] of the result is left as
    [np.empty_like] allocated it, whatever the rounding of the division. *)
Theorem vector_angle_null_unassigned (fdiv : R -> R -> R) (a b : ndarray)
  (i : nat) :
  length (rows a) = length (rows b) -> (i < length (rows a))%nat ->
  row_mag (row a i) = 0 \/ row_mag (row b i) = 0 ->
  length (vector_angle_with fdiv a b) = length (rows a) /\
  nth i (vector_angle_with fdiv a b) None = None.
Proof.
  intros Hlen Hi Hnull. unfold vector_angle_with.
  split; [apply length_zip_with, Hlen|].
  rewrite (nth_zip_with _ _ _ i [] [] None) by (rewrite <- ?Hlen; exact Hi).
  fold (row a i) (row b i). unfold angle_entry.
  rewrite (dot_null _ _ Hnull).
  destruct (Req_dec_T (row_mag (row a i) * row_mag (row b i)) 0) as [_|Hden].
  - destruct (Req_dec_T 0 0) as [_|H]; [reflexivity|contradiction].
  - exfalso. apply Hden. destruct Hnull as [-> | ->]; ring.
Qed.

Lemma vector_angle_null_unassigned_witness :
  nth 0 (vector_angle_with Rdiv (mk_ndarray 2 [[0; 0]])
           (mk_ndarray 2 [[1; 2]])) None = None.
Proof.
  apply (vector_angle_null_unassigned Rdiv (mk_ndarray 2 [[0; 0]])
           (mk_ndarray 2 [[1; 2]]) 0).
  - reflexivity.
  - simpl. lia.
  - left. unfold row, row_mag, row_mag_sq, square.
    cbn [rows nth map sum fold_right].
    replace (0 * 0 + (0 * 0 + 0)) with 0 by ring. apply sqrt_0.
Defined.

Lemma vector_perp_rows (v : ndarray) :
  shape_last v = 2%nat ->
  vector_perp v
  = Ok (mk_ndarray 2 (map (fun r => [item r 1; - item r 0]) (rows v))).
Proof.
  intros Hd. unfold vector_perp. now rewrite Hd.
Qed.

Lemma well_formed_row (v : ndarray) (i : nat) :
  well_formed v -> (i < length (rows v))%nat ->
  length (row v i) = shape_last v.
Proof.
  intros Hwf Hi. unfold well_formed in Hwf. rewrite Forall_forall in Hwf.
  apply Hwf, nth_In, Hi.
Qed.

(** X10.  For a nonzero vector [v[i]] of an array of shape [(n, 2)], the
    angle that [vector_angle] finds between [v[i]] and row [i] of
    [vector_perp v] is [pi / 2]. *)
Theorem vector_angle_perp (v : ndarray) (i : nat) :
  shape_last v = 2%nat -> well_formed v -> (i < length (rows v))%nat ->
  nonzero (row v i) ->
  exists w, vector_perp v = Ok w /\
            nth i (vector_angle v w) None = Some (PI / 2).
Proof.
  intros Hd Hwf Hi Hnz. rewrite (vector_perp_rows v Hd).
  eexists. split; [reflexivity|].
  pose proof (well_formed_row v i Hwf Hi) as Hlen. rewrite Hd in Hlen.
  assert (Hrow : row {| shape_last := 2;
                        rows := map (fun r => [item r 1; - item r 0]) (rows v) |}
                   i = [item (row v i) 1; - item (row v i) 0]).
  { unfold row. cbn [rows].
    rewrite (nth_indep _ [] ((fun r => [item r 1; - item r 0]) []))
      by (rewrite length_map; exact Hi).
    apply (map_nth (fun r => [item r 1; - item r 0])). }
  rewrite vector_angle_exact.
  - rewrite Hrow. destruct (row v i) as [|x [|y [|z t]]];
      try discriminate Hlen.
    unfold item. cbn [nth].
    replace (dot [x; y] [y; - x]) with 0
      by (unfold dot; cbn [zip_with sum fold_right]; ring).
    unfold Rdiv. rewrite Rmult_0_l. now rewrite acos_0.
  - cbn [rows]. now rewrite length_map.
  - exact Hi.
  - exact Hnz.
  - rewrite Hrow. destruct (row v i) as [|x [|y [|z t]]];
      try discriminate Hlen.
    unfold item. cbn [nth]. unfold nonzero in *.
    apply Exists_cons in Hnz. destruct Hnz as [Hx|Hnz].
    + apply Exists_cons_tl, Exists_cons_hd. lra.
    + apply Exists_cons in Hnz. destruct Hnz as [Hy|Hnz].
      * apply Exists_cons_hd. exact Hy.
      * inversion Hnz.
Qed.

Lemma vector_angle_perp_witness :
  exists w, vector_perp (mk_ndarray 2 [[3; 4]]) = Ok w /\
            nth 0 (vector_angle (mk_ndarray 2 [[3; 4]]) w) None
            = Some (PI / 2).
Proof.
  apply (vector_angle_perp (mk_ndarray 2 [[3; 4]]) 0).
  - reflexivity.
  - repeat constructor.
  - simpl. lia.
  - apply Exists_cons_hd. lra.
Defined.

(** X11.  On an array of shape [(n, 2)], applying [vector_perp] twice
    negates every vector, and applying it four times returns the input. *)
Theorem vector_perp_twice (v : ndarray) :
  shape_last v = 2%nat -> well_formed v ->
  and_then (vector_perp v) vector_perp
  = Ok (mk_ndarray 2 (map (map Ropp) (rows v))) /\
  and_then (and_then (and_then (vector_perp v) vector_perp) vector_perp)
    vector_perp = Ok v.
Proof.
  intros Hd Hwf.
  assert (Htwice : and_then (vector_perp v) vector_perp
                   = Ok (mk_ndarray 2 (map (map Ropp) (rows v)))).
  { rewrite (vector_perp_rows v Hd). cbn [and_then].
    rewrite vector_perp_rows by reflexivity. cbn [rows].
    do 2 f_equal. rewrite map_map. apply map_ext_in. intros r Hr.
    unfold well_formed in Hwf. rewrite Forall_forall in Hwf.
    specialize (Hwf r Hr). rewrite Hd in Hwf.
    destruct r as [|x [|y [|z t]]]; try discriminate Hwf.
    reflexivity. }
  split; [exact Htwice|]. rewrite Htwice. cbn [and_then].
  rewrite vector_perp_rows by reflexivity. cbn [and_then rows].
  rewrite vector_perp_rows by reflexivity. cbn [rows].
  destruct v as [d rs]. cbn [shape_last rows] in *. subst d.
  do 2 f_equal. rewrite !map_map. rewrite <- (map_id rs) at 2.
  apply map_ext_in. intros r Hr.
  unfold well_formed in Hwf. rewrite Forall_forall in Hwf.
  specialize (Hwf r Hr). cbn [shape_last] in Hwf.
  destruct r as [|x [|y [|z t]]]; try discriminate Hwf.
  unfold item. cbn [map nth]. repeat f_equal; ring.
Qed.

Lemma vector_perp_twice_witness :
  and_then (vector_perp (mk_ndarray 2 [[3; 4]])) vector_perp
  = Ok (mk_ndarray 2 (map (map Ropp) [[3; 4]])).
Proof.
  apply (vector_perp_twice (mk_ndarray 2 [[3; 4]])).
  - reflexivity.
  - repeat constructor.
Defined.

End AngleFacts.

Section CoordinateFacts.
Import Vector.
Local Open Scope R_scope.

Lemma hypot_factor (x y : R) :
  x <> 0 -> sqrt (x * x + y * y) = Rabs x * sqrt (1 + (y / x)²).
Proof.
  intros Hx.
  replace (x * x + y * y) with (x² * (1 + (y / x)²))
    by (unfold Rsqr; field; exact Hx).
  rewrite sqrt_mult_alt by apply Rle_0_sqr.
  now rewrite sqrt_Rsqr_abs.
Qed.

Lemma sqrt_one_plus_sqr_pos (t : R) : 0 < sqrt (1 + t²).
Proof.
  apply sqrt_lt_R0. pose proof (Rle_0_sqr t). lra.
Qed.

(** The polar form that [cart_to_polar] computes for [(x, y)] describes
    [(x, y)]. *)
Lemma arctan2_cartesian (x y : R) :
  sqrt (x * x + y * y) * cos (arctan2 y x) = x /\
  sqrt (x * x + y * y) * sin (arctan2 y x) = y.
Proof.
  unfold arctan2.
  destruct (Rlt_dec 0 x) as [Hpos|Hnpos];
    [|destruct (Rlt_dec x 0) as [Hneg|Hnneg]].
  - rewrite hypot_factor by lra. rewrite Rabs_right by lra.
    rewrite cos_atan, sin_atan.
    pose proof (sqrt_one_plus_sqr_pos (y / x)).
    split; field; lra.
  - rewrite hypot_factor by lra. rewrite Rabs_left by lra.
    pose proof (sqrt_one_plus_sqr_pos (y / x)).
    destruct (Rle_dec 0 y) as [_|_].
    + rewrite neg_cos, neg_sin, cos_atan, sin_atan. split; field; lra.
    + rewrite cos_minus, sin_minus, cos_PI, sin_PI, cos_atan, sin_atan.
      split; field; lra.
  - assert (Hx : x = 0) by lra. subst x.
    replace (0 * 0 + y * y) with (y * y) by ring.
    destruct (Rlt_dec 0 y) as [Hy|Hy'];
      [|destruct (Rlt_dec y 0) as [Hy|Hy'']].
    + rewrite sqrt_square by lra. rewrite cos_PI2, sin_PI2. split; ring.
    + replace (y * y) with (- y * - y) by ring.
      rewrite sqrt_square by lra.
      rewrite cos_neg, sin_neg, cos_PI2, sin_PI2. split; ring.
    + assert (Hy0 : y = 0) by lra. subst y.
      rewrite Rmult_0_l, sqrt_0. split; ring.
Qed.

Lemma row_mag_pair (x y : R) : row_mag [x; y] = sqrt (x * x + y * y).
Proof.
  unfold row_mag, row_mag_sq, square. cbn [map sum fold_right].
  f_equal. ring.
Qed.

Lemma row_mag_triple (x y z : R) :
  row_mag [x; y; z] = sqrt (x * x + y * y + z * z).
Proof.
  unfold row_mag, row_mag_sq, square. cbn [map sum fold_right].
  f_equal. ring.
Qed.

(** X12.  On 2-D cartesian vectors, [polar_to_cart] undoes
    [cart_to_polar], the null vector included. *)
Theorem cart_polar_roundtrip_2d (arr_c : ndarray) :
  shape_last arr_c = 2%nat -> well_formed arr_c ->
  and_then (cart_to_polar arr_c) polar_to_cart = Ok arr_c.
Proof.
  destruct arr_c as [d rs]. cbn [shape_last]. intros -> Hwf.
  unfold cart_to_polar. cbn [shape_last rows Nat.eqb and_then].
  unfold polar_to_cart. cbn [shape_last rows Nat.eqb].
  do 2 f_equal. rewrite map_map. rewrite <- (map_id rs) at 2.
  apply map_ext_in. intros c Hc.
  unfold well_formed in Hwf. rewrite Forall_forall in Hwf.
  specialize (Hwf c Hc). cbn [shape_last] in Hwf.
  destruct c as [|x [|y [|z t]]]; try discriminate Hwf.
  unfold item. cbn [nth]. rewrite row_mag_pair.
  destruct (arctan2_cartesian x y) as [-> ->]. reflexivity.
Qed.

Lemma cart_polar_roundtrip_2d_witness :
  and_then (cart_to_polar (mk_ndarray 2 [[-3; 4]; [0; 0]])) polar_to_cart
  = Ok (mk_ndarray 2 [[-3; 4]; [0; 0]]).
Proof.
  apply cart_polar_roundtrip_2d.
  - reflexivity.
  - repeat constructor.
Defined.

(** X13.  On 3-D polar vectors [(r, inclination, azimuth)] with [r > 0],
    inclination in [(0, pi)] and azimuth in [(-pi, pi]], [cart_to_polar]
    undoes [polar_to_cart]. *)
Theorem polar_cart_roundtrip_3d (arr_p : ndarray) :
  shape_last arr_p = 3%nat ->
  Forall (fun p => length p = 3%nat /\ 0 < item p 0 /\
                   0 < item p 1 < PI /\
                   - PI < item p 2 <= PI) (rows arr_p) ->
  and_then (polar_to_cart arr_p) cart_to_polar = Ok arr_p.
Proof.
  destruct arr_p as [d rs]. cbn [shape_last rows]. intros -> Hrows.
  unfold polar_to_cart. cbn [shape_last rows Nat.eqb and_then].
  unfold cart_to_polar. cbn [shape_last rows Nat.eqb].
  do 2 f_equal. rewrite map_map. rewrite <- (map_id rs) at 2.
  apply map_ext_in. intros p Hp. rewrite Forall_forall in Hrows.
  destruct (Hrows p Hp) as [Hlen [Hr [Hinc Haz]]].
  destruct p as [|r [|inc [|az [|w t]]]]; try discriminate Hlen.
  unfold item in *. cbn [nth] in *. cbv zeta.
  rewrite row_mag_polar3 by lra.
  replace (r * cos inc / r) with (cos inc) by (field; lra).
  rewrite acos_cos by lra.
  assert (Hsin : 0 < sin inc) by (apply sin_gt_0; lra).
  rewrite (arctan2_polar (r * sin inc) az) by (try nra; exact Haz).
  reflexivity.
Qed.

Lemma polar_cart_roundtrip_3d_witness :
  and_then (polar_to_cart (mk_ndarray 3 [[2; PI / 2; 0]])) cart_to_polar
  = Ok (mk_ndarray 3 [[2; PI / 2; 0]]).
Proof.
  apply polar_cart_roundtrip_3d.
  - reflexivity.
  - constructor; [|constructor]. unfold item. cbn [nth length].
    pose proof PI_RGT_0. repeat split; lra.
Defined.

Lemma inclination_sine (x y z : R) :
  let r := sqrt (x * x + y * y + z * z) in
  r <> 0 ->
  -1 <= z / r <= 1 /\ r * sin (acos (z / r)) = sqrt (x * x + y * y).
Proof.
  intros r Hr.
  assert (Hsum : 0 <= x * x + y * y + z * z) by nra.
  assert (Hrr : r * r = x * x + y * y + z * z) by (apply sqrt_sqrt, Hsum).
  assert (Hrpos : 0 < r) by (pose proof (sqrt_pos (x * x + y * y + z * z));
                             fold r in H; lra).
  assert (Hq : z / r * r = z) by (field; lra).
  set (q := z / r) in *.
  assert (Hqq : q * q <= 1).
  { apply (Rmult_le_reg_r (r * r)); [nra|]. nra. }
  assert (Hrange : -1 <= q <= 1) by (split; nra).
  split; [exact Hrange|].
  rewrite sin_acos by exact Hrange.
  rewrite <- (sqrt_square r) at 1 by lra.
  rewrite <- sqrt_mult_alt by nra.
  f_equal. unfold Rsqr. nra.
Qed.

(** X14.  On nonzero 3-D cartesian vectors, [polar_to_cart] undoes
    [cart_to_polar]. *)
Theorem cart_polar_roundtrip_3d (arr_c : ndarray) :
  shape_last arr_c = 3%nat -> well_formed arr_c ->
  Forall nonzero (rows arr_c) ->
  and_then (cart_to_polar arr_c) polar_to_cart = Ok arr_c.
Proof.
  destruct arr_c as [d rs]. cbn [shape_last rows]. intros -> Hwf Hnz.
  unfold cart_to_polar. cbn [shape_last rows Nat.eqb and_then].
  unfold polar_to_cart. cbn [shape_last rows Nat.eqb].
  do 2 f_equal. rewrite map_map. rewrite <- (map_id rs) at 2.
  apply map_ext_in. intros c Hc.
  unfold well_formed in Hwf. rewrite Forall_forall in Hwf, Hnz.
  specialize (Hwf c Hc). cbn [shape_last] in Hwf.
  pose proof (nonzero_row_mag c (Hnz c Hc)) as Hmag.
  destruct c as [|x [|y [|z [|w t]]]]; try discriminate Hwf.
  unfold item. cbn [nth]. cbv zeta.
  rewrite row_mag_triple in *.
  destruct (inclination_sine x y z Hmag) as [Hrange Hsin].
  rewrite Hsin. rewrite cos_acos by exact Hrange.
  destruct (arctan2_cartesian x y) as [-> ->].
  do 2 f_equal. f_equal. field. exact Hmag.
Qed.

Lemma cart_polar_roundtrip_3d_witness :
  and_then (cart_to_polar (mk_ndarray 3 [[1; -2; 2]])) polar_to_cart
  = Ok (mk_ndarray 3 [[1; -2; 2]]).
Proof.
  apply cart_polar_roundtrip_3d.
  - reflexivity.
  - repeat constructor.
  - constructor; [|constructor]. apply Exists_cons_hd. lra.
Defined.

Lemma arctan2_range (y x : R) : - PI < arctan2 y x <= PI.
Proof.
  pose proof PI_RGT_0 as Hpi. unfold arctan2.
  destruct (Rlt_dec 0 x) as [Hpos|Hnpos];
    [|destruct (Rlt_dec x 0) as [Hneg|Hnneg]].
  - pose proof (atan_bound (y / x)). lra.
  - pose proof (atan_bound (y / x)) as Hb.
    destruct (Rle_dec 0 y) as [Hy|Hy].
    + assert (Ht : y / x <= 0).
      { unfold Rdiv. assert (/ x < 0) by (apply Rinv_lt_0_compat, Hneg). nra. }
      assert (atan (y / x) <= 0).
      { destruct Ht as [Ht|Ht].
        - apply atan_increasing in Ht. rewrite atan_0 in Ht. lra.
        - rewrite Ht, atan_0. lra. }
      lra.
    + assert (Ht : 0 < y / x).
      { unfold Rdiv. assert (/ x < 0) by (apply Rinv_lt_0_compat, Hneg). nra. }
      apply atan_increasing in Ht. rewrite atan_0 in Ht. lra.
  - destruct (Rlt_dec 0 y); [lra|]. destruct (Rlt_dec y 0); lra.
Qed.

(** X15.  The polar vectors that [cart_to_polar] returns are normalised:
    in dimension 2 the radius is nonnegative and the angle lies in
    [[-pi, pi]]; in dimension 3, for nonzero vectors, the radius is
    positive, the inclination lies in [[0, pi]] and the azimuth in
    [[-pi, pi]]. *)
Theorem cart_to_polar_ranges (arr_c arr_p : ndarray) :
  cart_to_polar arr_c = Ok arr_p ->
  (shape_last arr_c = 2%nat ->
   Forall (fun p => 0 <= item p 0 /\ - PI <= item p 1 <= PI) (rows arr_p)) /\
  (shape_last arr_c = 3%nat -> Forall nonzero (rows arr_c) ->
   Forall (fun p => 0 < item p 0 /\ 0 <= item p 1 <= PI /\
                    - PI <= item p 2 <= PI) (rows arr_p)).
Proof.
  intros Hok. split.
  - intros Hd. unfold cart_to_polar in Hok. rewrite Hd in Hok.
    cbn [Nat.eqb] in Hok. injection Hok as <-. cbn [rows].
    apply Forall_map_intro. intros c _. unfold item. cbn [nth].
    pose proof (arctan2_range (nth 1 c 0) (nth 0 c 0)).
    split; [apply row_mag_nonneg|lra].
  - intros Hd Hnz. unfold cart_to_polar in Hok. rewrite Hd in Hok.
    cbn [Nat.eqb] in Hok. injection Hok as <-. cbn [rows].
    apply Forall_map_intro. intros c Hc. unfold item. cbn [nth]. cbv zeta.
    rewrite Forall_forall in Hnz.
    pose proof (nonzero_row_mag c (Hnz c Hc)) as Hm.
    pose proof (row_mag_nonneg c) as Hge.
    pose proof (arctan2_range (nth 1 c 0) (nth 0 c 0)).
    split; [lra|]. split; [apply acos_bound|lra].
Qed.

Lemma cart_to_polar_ranges_witness :
  (exists arr_p, cart_to_polar (mk_ndarray 2 [[-3; 4]]) = Ok arr_p /\
     Forall (fun p => 0 <= item p 0 /\ - PI <= item p 1 <= PI)
       (rows arr_p)) /\
  (exists arr_p, cart_to_polar (mk_ndarray 3 [[1; -2; 2]]) = Ok arr_p /\
     Forall (fun p => 0 < item p 0 /\ 0 <= item p 1 <= PI /\
                      - PI <= item p 2 <= PI) (rows arr_p)).
Proof.
  split.
  - eexists. split; [reflexivity|].
    apply (proj1 (cart_to_polar_ranges (mk_ndarray 2 [[-3; 4]]) _ eq_refl)).
    reflexivity.
  - eexists. split; [reflexivity|].
    apply (proj2 (cart_to_polar_ranges (mk_ndarray 3 [[1; -2; 2]]) _
                    eq_refl)).
    + reflexivity.
    + constructor; [|constructor]. apply Exists_cons_hd. lra.
Defined.

Lemma row_mag_polar2_abs (r theta : R) :
  row_mag [r * cos theta; r * sin theta] = Rabs r.
Proof.
  rewrite row_mag_pair.
  replace (r * cos theta * (r * cos theta) + r * sin theta * (r * sin theta))
    with (r² * (Rsqr (sin theta) + Rsqr (cos theta)))
    by (unfold Rsqr; ring).
  rewrite sin2_cos2, Rmult_1_r. apply sqrt_Rsqr_abs.
Qed.

Lemma row_mag_polar3_abs (r inc az : R) :
  row_mag [r * sin inc * cos az; r * sin inc * sin az; r * cos inc]
  = Rabs r.
Proof.
  rewrite row_mag_triple.
  replace (r * sin inc * cos az * (r * sin inc * cos az) +
           r * sin inc * sin az * (r * sin inc * sin az) +
           r * cos inc * (r * cos inc))
    with (r² * (Rsqr (sin inc) * (Rsqr (sin az) + Rsqr (cos az))
                + Rsqr (cos inc)))
    by (unfold Rsqr; ring).
  rewrite sin2_cos2, Rmult_1_r, sin2_cos2, Rmult_1_r. apply sqrt_Rsqr_abs.
Qed.

Lemma nth_map_rows (f : list R -> list R) (rs : list (list R)) (i : nat) :
  (i < length rs)%nat -> nth i (map f rs) [] = f (nth i rs []).
Proof.
  intros Hi. rewrite (nth_indep _ [] (f [])) by (now rewrite length_map).
  apply map_nth.
Qed.

(** X16.  The magnitude of a vector returned by [polar_to_cart] is the
    absolute value of the radius component of the polar vector it comes
    from, in dimension 1, 2 and 3; a negative radius is not kept apart. *)
Theorem polar_to_cart_magnitude (arr_p arr_c : ndarray) (i : nat) :
  polar_to_cart arr_p = Ok arr_c -> well_formed arr_p ->
  (i < length (rows arr_p))%nat ->
  row_mag (row arr_c i) = Rabs (item (row arr_p i) 0).
Proof.
  intros Hok Hwf Hi. pose proof (well_formed_row arr_p i Hwf Hi) as Hlen.
  unfold polar_to_cart in Hok.
  destruct (Nat.eqb_spec (shape_last arr_p) 1) as [E1|E1];
    [|destruct (Nat.eqb_spec (shape_last arr_p) 2) as [E2|E2];
      [|destruct (Nat.eqb_spec (shape_last arr_p) 3) as [E3|E3]]];
    try discriminate Hok; injection Hok as <-; unfold row in *; cbn [rows].
  - rewrite E1 in Hlen.
    destruct (nth i (rows arr_p) []) as [|r [|y t]]; try discriminate Hlen.
    unfold item. cbn [nth]. unfold row_mag, row_mag_sq, square.
    cbn [map sum fold_right].
    replace (r * r + 0) with (r²) by (unfold Rsqr; ring).
    apply sqrt_Rsqr_abs.
  - rewrite nth_map_rows by exact Hi. apply row_mag_polar2_abs.
  - rewrite nth_map_rows by exact Hi. apply row_mag_polar3_abs.
Qed.

Lemma polar_to_cart_magnitude_witness :
  exists arr_c, polar_to_cart (mk_ndarray 2 [[-2; 1]]) = Ok arr_c /\
                row_mag (row arr_c 0) = Rabs (-2).
Proof.
  eexists. split; [reflexivity|].
  apply (polar_to_cart_magnitude (mk_ndarray 2 [[-2; 1]]) _ 0 eq_refl).
  - repeat constructor.
  - simpl. lia.
Defined.

End CoordinateFacts.

Section SamplerFacts.
Import Vector.
Local Open Scope R_scope.

Lemma in_firstn {A : Type} (n : nat) (l : list A) (x : A) :
  In x (firstn n l) -> In x l.
Proof.
  intros H. rewrite <- (firstn_skipn n l). apply in_or_app. now left.
Qed.

(** X17.  The polar samples of [sphere_pick_polar] lie in fixed ranges:
    in dimension 2 the radius is 1 and the angle lies in [[-pi, pi)]; in
    dimension 3 the radius is 1, the inclination lies in [[0, pi]] and the
    azimuth in [[0, 2 pi)]. *)
Theorem sphere_pick_polar_ranges (n : Z) (s : RandomState) :
  (0 <= n)%Z -> valid_tape s ->
  (exists p s', sphere_pick_polar 2 n s = (Ok p, s') /\
     Forall (fun r => item r 0 = 1 /\ - PI <= item r 1 < PI) (rows p)) /\
  (exists p s', sphere_pick_polar 3 n s = (Ok p, s') /\
     Forall (fun r => item r 0 = 1 /\ 0 <= item r 1 <= PI /\
                      0 <= item r 2 < 2 * PI) (rows p)).
Proof.
  intros Hn Hv. pose proof PI_RGT_0 as Hpi. split.
  - rewrite sphere_pick_polar_2 by exact Hn. do 2 eexists.
    split; [reflexivity|]. cbn [rows]. apply Forall_map_intro.
    intros u Hu. unfold item. cbn [nth].
    pose proof (draws_valid s (Z.to_nat n) Hv) as Hd.
    rewrite Forall_forall in Hd. specialize (Hd u Hu).
    split; [reflexivity|]. split; nra.
  - rewrite sphere_pick_polar_3 by exact Hn. do 2 eexists.
    split; [reflexivity|]. cbn [rows]. apply Forall_zip_with.
    intros u v Hu _. unfold item. cbn [nth].
    apply in_firstn, in_map_iff in Hu. destruct Hu as [raw [<- Hraw]].
    pose proof (draws_valid s (2 * Z.to_nat n) Hv) as Hd.
    rewrite Forall_forall in Hd. specialize (Hd raw Hraw).
    split; [reflexivity|]. split; [apply acos_bound|]. split; nra.
Qed.

Lemma sphere_pick_polar_ranges_witness :
  exists p s', sphere_pick_polar 2 3 (constant_state (1 / 2)) = (Ok p, s') /\
    Forall (fun r => item r 0 = 1 /\ - PI <= item r 1 < PI) (rows p).
Proof.
  apply (proj1 (sphere_pick_polar_ranges 3 (constant_state (1 / 2))
                  ltac:(lia)
                  ltac:(intros i; cbn [constant_state tape]; lra))).
Defined.

Lemma disk_pick_negative (n : Z) (s : RandomState) :
  (n < 0)%Z ->
  exists e, disk_pick_polar n s = (Raise e, s) /\ disk_pick n s = (Raise e, s).
Proof.
  intros Hn. unfold disk_pick, disk_pick_polar, bind, lift, np_shape.
  destruct (Z.ltb_spec n 0) as [_|H]; [|lia]. cbn [orb].
  eexists. split; reflexivity.
Qed.

(** X18.  [disk_pick(n)] raises exactly when [n] is negative, and then
    leaves the random state as it was; otherwise every polar sample has
    its radius in [[0, 1)] and its angle in [[0, 2 pi)], and every
    cartesian sample lies strictly inside the unit disk. *)
Theorem disk_pick_strictly_inside (n : Z) (s : RandomState) :
  valid_tape s ->
  ((n < 0)%Z ->
   exists e, disk_pick_polar n s = (Raise e, s) /\
             disk_pick n s = (Raise e, s)) /\
  ((0 <= n)%Z ->
   exists p c s',
     disk_pick_polar n s = (Ok p, s') /\
     disk_pick n s = (Ok c, s') /\
     Forall (fun r => 0 <= item r 0 < 1 /\ 0 <= item r 1 < 2 * PI) (rows p) /\
     Forall (fun r => row_mag r < 1) (rows c)).
Proof.
  intros Hv. split; [apply disk_pick_negative|]. intros Hn.
  pose proof PI_RGT_0 as Hpi.
  unfold disk_pick, bind. rewrite disk_pick_polar_eq by exact Hn.
  do 3 eexists. split; [reflexivity|].
  unfold lift, polar_to_cart. cbn [shape_last rows Nat.eqb].
  split; [reflexivity|]. cbn [rows].
  assert (Hpolar : Forall (fun r => 0 <= item r 0 < 1 /\
                                    0 <= item r 1 < 2 * PI)
                     (zip_with (fun u t => [sqrt u; t])
                        (map (fun u => 0 + (1 - 0) * u)
                           (draws s (Z.to_nat n)))
                        (map (fun u => 0 + (2 * PI - 0) * u)
                           (draws (advance (Z.to_nat n) s) (Z.to_nat n))))).
  { apply Forall_zip_with. intros u t Hu Ht. unfold item. cbn [nth].
    apply in_map_iff in Hu, Ht.
    destruct Hu as [raw [<- Hraw]], Ht as [raw' [<- Hraw']].
    pose proof (draws_valid s (Z.to_nat n) Hv) as Hd.
    rewrite Forall_forall in Hd. specialize (Hd raw Hraw).
    assert (Hv' : valid_tape (advance (Z.to_nat n) s))
      by (intros k; apply Hv).
    pose proof (draws_valid _ (Z.to_nat n) Hv') as Hd'.
    rewrite Forall_forall in Hd'. specialize (Hd' raw' Hraw').
    split; [|split; nra]. split; [apply sqrt_pos|].
    assert (Hlt : sqrt (0 + (1 - 0) * raw) < sqrt 1)
      by (apply sqrt_lt_1_alt; lra).
    now rewrite sqrt_1 in Hlt. }
  split; [exact Hpolar|].
  apply Forall_map_intro. intros r Hr.
  rewrite Forall_forall in Hpolar. destruct (Hpolar r Hr) as [[H0 H1] _].
  rewrite row_mag_polar2 by exact H0. exact H1.
Qed.

Lemma disk_pick_strictly_inside_witness :
  exists c s', disk_pick 2 (constant_state (1 / 4)) = (Ok c, s') /\
               Forall (fun r => row_mag r < 1) (rows c).
Proof.
  destruct (disk_pick_strictly_inside 2 (constant_state (1 / 4)))
    as [_ H].
  - intros i. cbn [constant_state tape]. lra.
  - destruct H as [p [c [s' [_ [H1 [_ H2]]]]]]; [lia|].
    exists c, s'. split; assumption.
Defined.


End SamplerFacts.

(* ================================================================= *)
(** * Part IV: the harness *)

Section HarnessFacts.
Import Numerics TestNumerics.
Local Open Scope Q_scope.

Lemma entries_eqb_eq (x y : list nat) : entries_eqb x y = true <-> x = y.
Proof.
  unfold entries_eqb. destruct (list_eq_dec Nat.eq_dec x y); split;
    intros H; try reflexivity; try assumption; try discriminate.
  contradiction.
Qed.

Lemma relation_eqb_eq (x y : NeighborRelation) :
  relation_eqb x y = true <-> x = y.
Proof.
  unfold relation_eqb.
  destruct (list_eq_dec (list_eq_dec Nat.eq_dec) x y); split;
    intros H; try reflexivity; try assumption; try discriminate.
  contradiction.
Qed.

Lemma differs_iff (di ci ni : list nat) :
  negb (entries_eqb di ci) || negb (entries_eqb di ci)
  || negb (entries_eqb ci ni) = false
  <-> di = ci /\ ci = ni.
Proof.
  rewrite !orb_false_iff, !negb_false_iff, !entries_eqb_eq. tauto.
Qed.

Lemma differing_lines_complete (d c n : NeighborRelation) :
  length d = length c -> length c = length n ->
  snd (differing_lines d c n) = false /\
  (fst (differing_lines d c n) = [] <-> d = c /\ c = n) /\
  forall t, In t (fst (differing_lines d c n)) <->
    exists i, (i < length d)%nat /\
      t = (nth i d [], nth i c [], nth i n []) /\
      ~ (nth i d [] = nth i c [] /\ nth i c [] = nth i n []).
Proof.
  revert c n. induction d as [|di d IH]; intros [|ci c] [|ni n] Hdc Hcn;
    try discriminate.
  - cbn. split; [reflexivity|]. split; [tauto|].
    intros t. split; [tauto|]. intros [i [Hi _]]. lia.
  - cbn [differing_lines]. cbn [length] in Hdc, Hcn.
    destruct (IH c n) as [Herr [Hnil Hin]]; [lia|lia|].
    destruct (negb (entries_eqb di ci) || negb (entries_eqb di ci)
              || negb (entries_eqb ci ni)) eqn:E.
    + assert (Hdiff : ~ (di = ci /\ ci = ni)).
      { intros H. apply differs_iff in H. congruence. }
      cbn [fst snd]. split; [exact Herr|]. split.
      * split; [discriminate|]. intros [H1 H2].
        injection H1 as H1 _. injection H2 as H2 _. tauto.
      * intros t. cbn [In]. rewrite Hin. split.
        -- intros [<- | [i [Hi [Ht Hn]]]].
           ++ exists 0%nat. cbn [nth length]. split; [lia|]. auto.
           ++ exists (S i). cbn [nth length]. split; [lia|]. auto.
        -- intros [[|i] [Hi [Ht Hn]]]; cbn [nth length] in *.
           ++ left. now symmetry.
           ++ right. exists i. split; [lia|]. auto.
    + apply differs_iff in E. destruct E as [-> ->].
      split; [exact Herr|]. split.
      * rewrite Hnil. split.
        -- intros [-> ->]. auto.
        -- intros [H1 H2]. injection H1 as H1. injection H2 as H2. auto.
      * intros t. rewrite Hin. split.
        -- intros [i [Hi [Ht Hn]]]. exists (S i). cbn [nth length].
           split; [lia|]. auto.
        -- intros [[|i] [Hi [Ht Hn]]]; cbn [nth length] in *.
           ++ exfalso. apply Hn. auto.
           ++ exists i. split; [lia|]. auto.
Qed.

(** X19.  On three relations with the same number of entries,
    [test_consistency] prints the message of agreement exactly when the
    sorted relations are equal; otherwise it prints, without an
    [IndexError], at least one line, and its lines are exactly the sorted
    entries of the indices at which the three relations differ. *)
Theorem test_consistency_complete (d c n : NeighborRelation) :
  length d = length c -> length c = length n ->
  (consistent d c n -> test_consistency d c n = AllEquivalent) /\
  (~ consistent d c n ->
   exists lines,
     test_consistency d c n = Differences lines false /\
     lines <> [] /\
     forall t, In t lines <->
       exists i, (i < length d)%nat /\
         t = (sorted (nth i d []), sorted (nth i c []), sorted (nth i n [])) /\
         ~ (sorted (nth i d []) = sorted (nth i c []) /\
            sorted (nth i c []) = sorted (nth i n []))).
Proof.
  intros Hdc Hcn. unfold test_consistency, consistent. cbv zeta. split.
  - intros [H1 H2]. apply relation_eqb_eq in H1, H2. now rewrite H1, H2.
  - intros Hne.
    destruct (relation_eqb (sorted_entries d) (sorted_entries c)
              && relation_eqb (sorted_entries c) (sorted_entries n)) eqn:E.
    { exfalso. apply Hne. apply andb_true_iff in E.
      rewrite !relation_eqb_eq in E. exact E. }
    destruct (differing_lines_complete (sorted_entries d) (sorted_entries c)
                (sorted_entries n)) as [Herr [Hnil Hin]];
      [unfold sorted_entries; now rewrite !length_map ..|].
    destruct (differing_lines (sorted_entries d) (sorted_entries c)
                (sorted_entries n)) as [lines err].
    cbn [fst snd] in *. subst err. exists lines.
    split; [reflexivity|]. split; [rewrite Hnil; exact Hne|].
    intros t. rewrite Hin. unfold sorted_entries at 1. rewrite length_map.
    split; intros [i H]; exists i; rewrite !nth_sorted_entries in *;
      exact H.
Qed.

Lemma test_consistency_complete_witness :
  test_consistency [[1; 0]; []]%nat [[0; 1]; []]%nat [[0; 1]; []]%nat
  = AllEquivalent.
Proof.
  apply (proj1 (test_consistency_complete [[1; 0]; []]%nat [[0; 1]; []]%nat
                  [[0; 1]; []]%nat eq_refl eq_refl)).
  split; reflexivity.
Defined.

Lemma Qltb_lt (x y : Q) : Qltb x y = true <-> x < y.
Proof.
  unfold Qltb. rewrite negb_true_iff. apply Qle_bool_false.
Qed.

Lemma Qltb_ge (x y : Q) : Qltb x y = false <-> y <= x.
Proof.
  unfold Qltb. rewrite negb_false_iff. apply Qle_bool_iff.
Qed.

Lemma Qeq_bool_false (x y : Q) : Qeq_bool x y = false <-> ~ x == y.
Proof.
  split.
  - intros H E. apply Qeq_bool_iff in E. congruence.
  - intros H. destruct (Qeq_bool x y) eqn:E; [|reflexivity].
    apply Qeq_bool_iff in E. contradiction.
Qed.

Ltac timing_cases :=
  repeat match goal with
         | H : Qltb _ _ = true |- _ => apply Qltb_lt in H
         | H : Qltb _ _ = false |- _ => apply Qltb_ge in H
         | H : Qeq_bool _ _ = true |- _ => apply Qeq_bool_iff in H
         | H : Qeq_bool _ _ = false |- _ => apply Qeq_bool_false in H
         end.

(** X20.  [find_quickest] always names a strategy, and names one whose
    timing is the smallest: 'Direct' exactly when the direct timing is at
    most both others, 'Cell list using checks' exactly when the checked
    timing is below the direct one and at most the unchecked one, and
    'Cell list without checks' exactly when the unchecked timing is below
    both others. *)
Theorem find_quickest_verdict_spec (td tc tn : Q) :
  find_quickest_verdict td tc tn <> None /\
  (find_quickest_verdict td tc tn = Some "Direct"%string
   <-> td <= tc /\ td <= tn) /\
  (find_quickest_verdict td tc tn = Some "Cell list using checks"%string
   <-> tc < td /\ tc <= tn) /\
  (find_quickest_verdict td tc tn = Some "Cell list without checks"%string
   <-> tn < td /\ tn < tc).
Proof.
  unfold find_quickest_verdict, min3. cbv zeta.
  destruct (Qltb tc td) eqn:E1;
    [destruct (Qltb tn tc) eqn:E2 | destruct (Qltb tn td) eqn:E2];
    repeat match goal with
           | |- context [Qeq_bool ?a ?b] => destruct (Qeq_bool a b) eqn:?
           end;
    timing_cases;
    repeat split; intros; try discriminate; try lra;
    repeat match goal with
           | H : _ /\ _ |- _ => destruct H
           | H : ~ _ == _ |- _ => exfalso; apply H; lra
           end; try lra.
Qed.

Lemma find_quickest_verdict_spec_witness :
  find_quickest_verdict 3 1 2 = Some "Cell list using checks"%string.
Proof.
  apply (proj2 (proj1 (proj2 (proj2 (find_quickest_verdict_spec 3 1 2))))).
  split; [reflexivity|discriminate].
Defined.

End HarnessFacts.

(* ================================================================= *)
(** * Part V: allocation, and the state that the functions read *)

Section AllocationFacts.
Import Vector.
Local Open Scope R_scope.


Lemma length_np_empty_rows (junk : nat -> nat -> R) (n d : nat) :
  length (np_empty_rows junk n d) = n.
Proof. unfold np_empty_rows. now rewrite length_map, length_seq. Qed.






















(** ** C10: which calls raise *)






(** ** C2: what the results depend on *)



















End AllocationFacts.
